(** * typhon.plugins.core: the signal registry, [SignalConnection] and
    [SignalPlugin], embedded as a state-and-exception monad with an event trace.

    The Python module talks to three collaborators that are not part of it:
    the ophyd signal (get, put, describe, subscribe, connected), the Qt
    signals of the PyDM connection (emit, connect, disconnect) and the PyDM
    base classes.  Their answers are taken from an environment; every call
    the module makes to them is recorded as an event, in program order. *)

From stdpp Require Import gmap strings list fin_maps.
From Stdlib Require Import ZArith.

Set Default Proof Using "Type".
Set Warnings "-register-all,-clear-no-such-hyp".
Open Scope string_scope.
Open Scope list_scope.

(** ** Python values and exceptions *)

(** The exception classes the module distinguishes; all of them derive from
    [Exception].  [KeyError] and [IndexError] are the [LookupError] family. *)
Inductive Exn :=
| KeyError
| IndexError
| TypeError
| ValueError
| OtherError (cls : string).

Definition is_LookupError (e : Exn) : bool :=
  match e with KeyError | IndexError => true | _ => false end.

Inductive Res (A : Type) :=
| Ok (a : A)
| Raise (e : Exn).
Arguments Ok {A} a.
Arguments Raise {A} e.

Definition raised {A} (r : Res A) : bool :=
  match r with Ok _ => false | Raise _ => true end.

(** Values that travel between signal and widgets.  A float is written as
    the dyadic number [m * 2^e]; an [ndarray] as the list of its items. *)
Inductive PyVal :=
| VNone
| VBool (b : bool)
| VInt (z : Z)
| VFloat (m e : Z)
| VStr (s : string)
| VList (l : list PyVal)
| VTuple (l : list PyVal)
| VArray (l : list PyVal).

(** [supported_types = [int, float, str, np.ndarray]] *)
Inductive PyType := int | float | str | ndarray.

Definition supported_types : list PyType := [int; float; str; ndarray].

Global Instance PyType_eq_dec : EqDecision PyType.
Proof. solve_decision. Defined.

Global Instance Exn_eq_dec : EqDecision Exn.
Proof. solve_decision. Defined.

(** [value is not None] *)
Definition is_not_None (v : PyVal) : bool :=
  match v with VNone => false | _ => true end.

(** [isinstance(val, list)] *)
Definition isinstance_list (v : PyVal) : bool :=
  match v with VList _ => true | _ => false end.

(** [bool(v)], as [if val:] evaluates it.  An array of more than one item
    has no truth value: numpy raises [ValueError]. *)
Fixpoint truth (v : PyVal) : Res bool :=
  match v with
  | VNone => Ok false
  | VBool b => Ok b
  | VInt z => Ok (negb (Z.eqb z 0))
  | VFloat m _ => Ok (negb (Z.eqb m 0))
  | VStr s => Ok (negb (String.eqb s ""))
  | VList l | VTuple l => Ok (negb (Nat.eqb (length l) 0))
  | VArray [] => Ok false
  | VArray [x] => truth x
  | VArray _ => Raise ValueError
  end.

(** [tuple(v)]: defined on the iterables, [TypeError] on the rest. *)
Definition chars (s : string) : list PyVal :=
  (fun c => VStr (String c EmptyString)) <$> String.list_ascii_of_string s.

Definition tuple (v : PyVal) : Res PyVal :=
  match v with
  | VList l | VTuple l | VArray l => Ok (VTuple l)
  | VStr s => Ok (VTuple (chars s))
  | VNone | VBool _ | VInt _ | VFloat _ _ => Raise TypeError
  end.

(** ** Qt signals, channels and events *)

(** The Qt signals of a [PyDMConnection] that the module emits on. *)
Inductive QtSignal :=
| new_value_signal (t : PyType)
| new_severity_signal
| unit_signal
| prec_signal
| lower_ctrl_limit_signal
| upper_ctrl_limit_signal
| enum_strings_signal
| connection_state_signal
| write_access_signal.

Global Instance QtSignal_eq_dec : EqDecision QtSignal.
Proof. solve_decision. Defined.

(** A listener channel.  [value_signal] is [None] for a read-only widget and
    otherwise lists the types its edit-request signal is overloaded for. *)
Record Channel := {
  channel_id : nat;
  channel_address : string;
  value_signal : option (list PyType);
}.

Inductive SubType := SUB_VALUE | SUB_META.

Inductive Level := DEBUG | ERROR | EXCEPTION.

(** Calls into the PyDM base classes ([super()]). *)
Inductive BaseOp :=
| Base_init (address : string)
| Base_add_listener (ch : nat)
| Base_remove_listener (ch : nat) (destroying : bool).

(** What the module does to the outside, one event per call, recorded when
    the call is made: an [Emit] or a [SignalPut] is in the trace whether the
    call then returns or raises. *)
Inductive Event :=
| Log (lvl : Level) (fmt : string)
| Emit (s : QtSignal) (v : PyVal)
| SignalGet (n : string)
| SignalDescribe (n : string)
| SignalPut (n : string) (v : PyVal)
| SignalSubscribe (n : string) (ev : SubType)
| SignalUnsubscribe (n : string) (handle : nat)
| RaiseToOperator (e : Exn)
| Connect (ch : nat) (t : PyType)
| Disconnect (ch : nat) (t : PyType)
| Super (op : BaseOp).

(** ** The environment and the state *)

Section Typhon.

(** [Ext] is the state of everything outside the module: the control system
    behind the signals, the Qt event loop and the widgets. *)
Context {Ext : Type}.

(** An ophyd signal, by the operations the module uses.  Each call may
    change the outside state and may raise. *)
Record Signal := {
  name : string;
  connected : Ext -> bool;
  get : Ext -> Res PyVal * Ext;
  put : PyVal -> Ext -> Res unit * Ext;
  describe : Ext -> Res (gmap string (gmap string PyVal)) * Ext;
  subscribe : SubType -> Ext -> Res nat * Ext;
  unsubscribe : nat -> Ext -> Res unit * Ext;
}.

(** The other collaborators.
    - [call_type t v] is the Python call [t(v)] of a builtin type on a value;
    - [_type_map] is ophyd's table from a dtype descriptor to Python classes,
      of which the module reads entry [0]; the classes are the four
      supported types;
    - [emit] is [pyqtSignal.emit], [pydm] a method of the PyDM base class;
    - [disconnect ch t c] is [channel.value_signal[t].disconnect(put_value)]
      for channel [ch] and connection [c]: PyQt answers [TypeError] when
      the slot is not connected, which is the answer [false];
    - [get_address] is [PyDMPlugin.get_address]. *)
Class Extern := {
  call_type : PyType -> PyVal -> Res PyVal;
  _type_map : gmap string (list PyType);
  emit : QtSignal -> PyVal -> Ext -> Res unit * Ext;
  pydm : BaseOp -> Ext -> Res unit * Ext;
  disconnect : nat -> PyType -> nat -> Ext -> bool * Ext;
  get_address : Channel -> string;
}.

Context {E : Extern}.

(** A [SignalConnection] object: its identity and the attributes that are
    set once in [__init__].  The attribute [signal_type], which changes
    later, lives in the store of the [World]. *)
Record Conn := {
  oid : nat;
  address : string;
  signal : Signal;
  _cid : nat;
  _mid : nat;
}.

(** The state of the process.
    - [signal_registry] is the module-level dict;
    - [signal_type] maps an object to its attribute [self.signal_type]
      (no entry: the attribute is [None]);
    - [connections] is the plugin's dict [self.connections];
    - [channels] is the plugin's set [self.channels], which PyDM keeps of
      the channels it was asked to connect, by object identity. *)
Record World := {
  ext : Ext;
  signal_registry : gmap string Signal;
  signal_type : gmap nat PyType;
  connections : gmap string Conn;
  channels : gset nat;
  next_oid : nat;
}.

Definition with_ext (x : Ext) (w : World) : World :=
  {| ext := x; signal_registry := signal_registry w;
     signal_type := signal_type w;
     connections := connections w; channels := channels w;
     next_oid := next_oid w |}.

Definition with_signal_registry (r : gmap string Signal) (w : World) : World :=
  {| ext := ext w; signal_registry := r;
     signal_type := signal_type w;
     connections := connections w; channels := channels w;
     next_oid := next_oid w |}.

Definition with_signal_type (t : gmap nat PyType) (w : World) : World :=
  {| ext := ext w; signal_registry := signal_registry w;
     signal_type := t;
     connections := connections w; channels := channels w;
     next_oid := next_oid w |}.

Definition with_connections (c : gmap string Conn) (w : World) : World :=
  {| ext := ext w; signal_registry := signal_registry w;
     signal_type := signal_type w;
     connections := c; channels := channels w;
     next_oid := next_oid w |}.

Definition with_channels (c : gset nat) (w : World) : World :=
  {| ext := ext w; signal_registry := signal_registry w;
     signal_type := signal_type w;
     connections := connections w; channels := c;
     next_oid := next_oid w |}.

Definition with_next_oid (n : nat) (w : World) : World :=
  {| ext := ext w; signal_registry := signal_registry w;
     signal_type := signal_type w;
     connections := connections w; channels := channels w;
     next_oid := n |}.

(** ** The monad: state, exceptions, and the trace of events *)

Record Out (A : Type) := MkOut {
  res : Res A;
  post : World;
  events : list Event;
}.
Arguments MkOut {A} res post events.
Arguments res {A} o.
Arguments post {A} o.
Arguments events {A} o.

Definition M (A : Type) : Type := World -> Out A.

Definition ret {A} (a : A) : M A := fun w => MkOut (Ok a) w [].

Definition raise {A} (e : Exn) : M A := fun w => MkOut (Raise e) w [].

Definition bind {A B} (m : M A) (k : A -> M B) : M B := fun w =>
  match m w with
  | MkOut (Ok a) w1 t1 =>
      match k a w1 with MkOut r w2 t2 => MkOut r w2 (t1 ++ t2) end
  | MkOut (Raise e) w1 t1 => MkOut (Raise e) w1 t1
  end.

(** [try: m  except Exception as e: h e] *)
Definition try_except {A} (m : M A) (h : Exn -> M A) : M A := fun w =>
  match m w with
  | MkOut (Ok a) w1 t1 => MkOut (Ok a) w1 t1
  | MkOut (Raise e) w1 t1 =>
      match h e w1 with MkOut r w2 t2 => MkOut r w2 (t1 ++ t2) end
  end.

(** [except (C1, C2):] catches the listed classes and lets the rest pass. *)
Definition try_except_only {A} (catches : Exn -> bool) (m : M A)
    (h : Exn -> M A) : M A :=
  try_except m (fun e => if catches e then h e else raise e).

Definition lift {A} (r : Res A) : M A := fun w => MkOut r w [].

Definition tell (e : Event) : M unit := fun w => MkOut (Ok tt) w [e].

Definition gets {A} (f : World -> A) : M A := fun w => MkOut (Ok (f w)) w [].

Definition modify (f : World -> World) : M unit := fun w => MkOut (Ok tt) (f w) [].

(** A call to a collaborator: the event, then its answer. *)
Definition extern {A} (e : Event) (f : Ext -> Res A * Ext) : M A := fun w =>
  match f (ext w) with (r, x) => MkOut r (with_ext x w) [e] end.

Notation "x <- m ;; k" := (bind m (fun x => k))
  (at level 100, m at next level, right associativity).
Notation "m ;; k" := (bind m (fun _ => k))
  (at level 100, right associativity).

(** [for x in l: body x] *)
Fixpoint for_each {A} (l : list A) (body : A -> M unit) : M unit :=
  match l with
  | [] => ret tt
  | x :: l' => body x ;; for_each l' body
  end.

(** [d[k]] on a dict with string keys *)
Definition getitem {V} (d : gmap string V) (k : string) : M V :=
  match d !! k with
  | Some v => ret v
  | None => raise KeyError
  end.

(** [l[0]] *)
Definition item0 {A} (l : list A) : M A :=
  match l with
  | x :: _ => ret x
  | [] => raise IndexError
  end.

(** Lists and arrays cannot be dict keys. *)
Fixpoint hashable (v : PyVal) : bool :=
  match v with
  | VList _ | VArray _ => false
  | VTuple l => forallb hashable l
  | _ => true
  end.

(** [_type_map[dtype]]: the table has string keys only. *)
Definition type_map_getitem (dtype : PyVal) : M (list PyType) :=
  match dtype with
  | VStr s => getitem _type_map s
  | _ => if hashable dtype then raise KeyError else raise TypeError
  end.

(** [t(v)] for the value [t] of [self.signal_type]; [None] is not callable. *)
Definition call (t : option PyType) (v : PyVal) : M PyVal :=
  match t with
  | Some c => lift (call_type c v)
  | None => raise TypeError
  end.

(** [t is not np.ndarray] *)
Definition is_not_ndarray (t : option PyType) : bool :=
  match t with Some ndarray => false | _ => true end.

(** The value a connection whose noted type is [t] hands on for [v]: [t(v)],
    or [v] itself when [t] is [np.ndarray] ([if t is not np.ndarray:
    v = t(v)]). *)
Definition coerce (t : option PyType) (v : PyVal) : M PyVal :=
  if is_not_ndarray t then call t v else ret v.

(** [bool(t)] for [self.signal_type]: a class is true, [None] is false. *)
Definition type_truth (t : option PyType) : bool :=
  match t with Some _ => true | None => false end.

(** [self.new_value_signal[t]]: one overload per supported type. *)
Definition new_value_signal_getitem (t : option PyType) : M QtSignal :=
  match t with
  | Some c => ret (new_value_signal c)
  | None => raise KeyError
  end.

(** [channel.value_signal[_typ]] *)
Definition value_signal_getitem (overloads : list PyType) (t : PyType) : M unit :=
  if decide (t ∈ overloads) then ret tt else raise KeyError.

Definition logger_debug (fmt : string) : M unit := tell (Log DEBUG fmt).
Definition logger_error (fmt : string) : M unit := tell (Log ERROR fmt).
Definition logger_exception (fmt : string) : M unit := tell (Log EXCEPTION fmt).

(** Modelled from the spec: [typhon.utils.raise_to_operator] is imported by
    the module and is not among the sources.  The spec has a caught write
    failure "handed to an operator-notification channel so a human can be
    alerted without crashing the UI": the call is recorded and returns. *)
Definition raise_to_operator (exc : Exn) : M unit := tell (RaiseToOperator exc).

Definition signal_get (s : Signal) : M PyVal :=
  extern (SignalGet (name s)) (get s).
Definition signal_describe (s : Signal) : M (gmap string (gmap string PyVal)) :=
  extern (SignalDescribe (name s)) (describe s).
Definition signal_put (s : Signal) (v : PyVal) : M unit :=
  extern (SignalPut (name s) v) (put s v).
Definition signal_subscribe (s : Signal) (ev : SubType) : M nat :=
  extern (SignalSubscribe (name s) ev) (subscribe s ev).
Definition signal_unsubscribe (s : Signal) (h : nat) : M unit :=
  extern (SignalUnsubscribe (name s) h) (unsubscribe s h).
Definition signal_connected (s : Signal) : M bool :=
  gets (fun w => connected s (ext w)).

Definition qt_emit (q : QtSignal) (v : PyVal) : M unit :=
  extern (Emit q v) (emit q v).

Definition super (op : BaseOp) : M unit := extern (Super op) (pydm op).

(** [val_sig.connect(self.put_value, Qt.QueuedConnection)] *)
Definition qt_connect (ch : nat) (t : PyType) : M unit := tell (Connect ch t).

(** [val_sig.disconnect(self.put_value)] *)
Definition qt_disconnect (ch : nat) (t : PyType) (c : nat) : M unit :=
  extern (Disconnect ch t)
    (fun x => match disconnect ch t c x with
              | (true, x') => (Ok tt, x')
              | (false, x') => (Raise TypeError, x')
              end).

(** [self.signal_type] and [self.signal_type = c] *)
Definition get_signal_type (self : Conn) : M (option PyType) :=
  gets (fun w => signal_type w !! oid self).

Definition set_signal_type (self : nat) (t : option PyType) : M unit :=
  modify (fun w =>
    with_signal_type
      match t with
      | Some c => <[self := c]> (signal_type w)
      | None => delete self (signal_type w)
      end w).

(** ** The registry *)

Definition register_signal (s : Signal) : M unit :=
  reg <- gets signal_registry ;;
  if decide (is_Some (reg !! name s)) then
    logger_debug "A signal named %s is already registered!"
  else
    modify (with_signal_registry (<[name s := s]> reg)).

(** ** SignalConnection *)

Definition describe_key_to_signal : list (string * QtSignal) :=
  [ ("units", unit_signal);
    ("precision", prec_signal);
    ("lower_ctrl_limit", lower_ctrl_limit_signal);
    ("upper_ctrl_limit", upper_ctrl_limit_signal);
    ("enum_strs", enum_strings_signal) ].

Definition metadata_key_to_signal : list (string * QtSignal) :=
  [ ("connected", connection_state_signal);
    ("write_access", write_access_signal) ].

Definition _key_to_signal : list (string * QtSignal) :=
  describe_key_to_signal ++ metadata_key_to_signal.

Definition put_value (self : Conn) (new_val : PyVal) : M unit :=
  try_except
    (t <- get_signal_type self ;;
     new_val <- coerce t new_val ;;
     logger_debug "Putting value %r to %r" ;;
     signal_put (signal self) new_val)
    (fun exc =>
       logger_exception "Unable to put %r to %s" ;;
       raise_to_operator exc).

(** The first lines of [send_new_value]: note the type if none is noted. *)
Definition note_type (self : Conn) : M unit :=
  t <- get_signal_type self ;;
  if negb (type_truth t) then
    d <- signal_describe (signal self) ;;
    info <- getitem d (name (signal self)) ;;
    dtype <- getitem info "dtype" ;;
    classes <- type_map_getitem dtype ;;
    c <- item0 classes ;;
    set_signal_type (oid self) (Some c)
  else ret tt.

(** The first [try] block of [send_new_value]: coerce and emit. *)
Definition emit_value (self : Conn) (value : PyVal) : M unit :=
  try_except
    (t <- get_signal_type self ;;
     value <- coerce t value ;;
     q <- new_value_signal_getitem t ;;
     qt_emit q value)
    (fun _ => logger_exception "Unable to update %r with value %r.").

(** The second one: [if severity is not None: ...]. *)
Definition emit_severity (severity : PyVal) : M unit :=
  if is_not_None severity then
    try_except
      (qt_emit new_severity_signal severity)
      (fun _ => logger_exception "Unable to update %r severity with value %r.")
  else ret tt.

Definition send_new_value (self : Conn) (value severity : PyVal) : M unit :=
  note_type self ;;
  emit_value self value ;;
  emit_severity severity.

(** [info['enum_strs'] = tuple(enum_strs)] when the entry is there and not
    [None]. *)
Definition normalise_enum_strs (info : gmap string PyVal) : M (gmap string PyVal) :=
  let enum_strs := default VNone (info !! "enum_strs") in
  if is_not_None enum_strs then
    t <- lift (tuple enum_strs) ;;
    ret (<["enum_strs" := t]> info)
  else ret info.

(** One round of the loop over [_key_to_signal] in [send_metadata]. *)
Definition send_key (info : gmap string PyVal) (entry : string * QtSignal) : M unit :=
  match info !! entry.1 with
  | None => ret tt
  | Some value =>
      if is_not_None value then
        try_except
          (qt_emit entry.2 value)
          (fun _ => logger_debug "Failed to emit %s %s=%s")
      else ret tt
  end.

(** The [if self.signal.connected:] block of [send_metadata]. *)
Definition current_info (self : Conn) (kwargs : gmap string PyVal) :
    M (gmap string PyVal) :=
  c <- signal_connected (signal self) ;;
  if c then
    d <- signal_describe (signal self) ;;
    info <- getitem d (name (signal self)) ;;
    ret (kwargs ∪ info)
  else ret kwargs.

Definition send_metadata (self : Conn) (kwargs : gmap string PyVal) : M unit :=
  info <- current_info self kwargs ;;
  info <- normalise_enum_strs info ;;
  for_each _key_to_signal (send_key info).

(** One round of the metadata loop in [add_listener]. *)
Definition report_field (signal_desc : gmap string PyVal)
    (entry : string * QtSignal) : M unit :=
  let val := default VNone (signal_desc !! entry.1) in
  b <- lift (truth val) ;;
  if b then
    val <- (if isinstance_list val then lift (tuple val) else ret val) ;;
    qt_emit entry.2 val
  else ret tt.

(** Hooking one overload of the channel's edit-request signal to
    [put_value]. *)
Definition hook_put (channel : Channel) (overloads : list PyType)
    (_typ : PyType) : M unit :=
  try_except_only (fun e => bool_decide (e = KeyError))
    (value_signal_getitem overloads _typ ;;
     qt_connect (channel_id channel) _typ)
    (fun _ => logger_debug "%s has no value_signal for type %s").

(** [add_listener] up to the [try]: the default setup of the base class,
    then the no-alarm state. *)
Definition announce (channel : Channel) : M unit :=
  logger_debug "Adding %r ..." ;;
  super (Base_add_listener (channel_id channel)) ;;
  qt_emit new_severity_signal (VInt 0).

(** The body of the [try]: the current value and the metadata. *)
Definition gather (self : Conn) : M (PyVal * gmap string PyVal) :=
  signal_val <- signal_get (signal self) ;;
  d <- signal_describe (signal self) ;;
  signal_desc <- getitem d (name (signal self)) ;;
  ret (signal_val, signal_desc).

(** The fields the metadata loop of [add_listener] goes through, each with
    its Qt signal. *)
Definition reported_fields : list (string * QtSignal) :=
  [ ("precision", prec_signal);
    ("enum_strs", enum_strings_signal);
    ("units", unit_signal) ].

(** [add_listener] after the [try]. *)
Definition report (self : Conn) (channel : Channel) (signal_val : PyVal)
    (signal_desc : gmap string PyVal) : M unit :=
  qt_emit write_access_signal (VBool true) ;;
  qt_emit connection_state_signal (VBool true) ;;
  for_each reported_fields (report_field signal_desc) ;;
  send_new_value self signal_val VNone ;;
  match value_signal channel with
  | Some overloads => for_each supported_types (hook_put channel overloads)
  | None => ret tt
  end.

Definition add_listener (self : Conn) (channel : Channel) : M unit :=
  announce channel ;;
  gathered <- try_except
    (g <- gather self ;; ret (Some g))
    (fun _ =>
       logger_exception
         "Failed to gather proper information from signal %r to initialize %r" ;;
       ret None) ;;
  match gathered with
  | None => ret tt
  | Some (signal_val, signal_desc) => report self channel signal_val signal_desc
  end.

(** Unhooking one overload in [remove_listener]. *)
Definition unhook_put (self : Conn) (channel : Channel)
    (overloads : list PyType) (_typ : PyType) : M unit :=
  try_except_only
    (fun e => bool_decide (e = KeyError) || bool_decide (e = TypeError))
    (value_signal_getitem overloads _typ ;;
     qt_disconnect (channel_id channel) _typ (oid self))
    (fun _ => logger_debug "Unable to disconnect value_signal from %s for type %s").

Definition remove_listener (self : Conn) (channel : Channel)
    (destroying : bool) : M unit :=
  logger_debug "Removing %r ..." ;;
  match value_signal channel with
  | Some overloads =>
      if negb destroying then
        for_each supported_types (unhook_put self channel overloads)
      else ret tt
  | None => ret tt
  end ;;
  super (Base_remove_listener (channel_id channel) destroying) ;;
  logger_debug "Successfully removed %r".

Definition close (self : Conn) : M unit :=
  signal_unsubscribe (signal self) (_cid self) ;;
  signal_unsubscribe (signal self) (_mid self).

(** [SignalConnection.__init__] on the fresh object [self]. *)
Definition __init__ (self : nat) (channel : Channel) (address : string) : M Conn :=
  super (Base_init address) ;;
  set_signal_type self None ;;
  reg <- gets signal_registry ;;
  signal <- getitem reg address ;;
  cid <- signal_subscribe signal SUB_VALUE ;;
  mid <- signal_subscribe signal SUB_META ;;
  let this := {| oid := self; address := address; signal := signal;
                 _cid := cid; _mid := mid |} in
  add_listener this channel ;;
  ret this.

(** [SignalConnection(channel, address, ...)]: a new object, then
    [__init__]. *)
Definition SignalConnection (channel : Channel) (address : string) : M Conn :=
  self <- gets next_oid ;;
  modify (with_next_oid (S self)) ;;
  __init__ self channel address.

(** ** SignalPlugin *)

(** [PyDMPlugin.add_connection], the method of the PyDM base class that
    [SignalPlugin.add_connection] wraps.  It is PyDM's code, not the
    module's:
    [[
      address = self.get_address(channel)
      if channel in self.channels:
          return
      self.channels.add(channel)
      if address in self.connections:
          self.connections[address].add_listener(channel)
      else:
          self.connections[address] = self.connection_class(
              channel, address, self.protocol)
    ]]
    A channel the plugin has seen before is ignored.  A new one is recorded
    first; then it is added as a listener to the connection its address
    already has, or else the connection class is instantiated and the
    object stored under the address.  The channel is recorded before the
    constructor runs, so it stays recorded when the constructor raises. *)
Definition PyDMPlugin_add_connection (channel : Channel) : M unit :=
  let address := get_address channel in
  seen <- gets channels ;;
  if decide (channel_id channel ∈ seen) then ret tt
  else
    modify (fun w => with_channels ({[ channel_id channel ]} ∪ channels w) w) ;;
    conns <- gets connections ;;
    match conns !! address with
    | Some c => add_listener c channel
    | None =>
        c <- SignalConnection channel address ;;
        modify (fun w => with_connections (<[address := c]> (connections w)) w)
    end.

Definition add_connection (channel : Channel) : M unit :=
  try_except
    (PyDMPlugin_add_connection channel)
    (fun e =>
       match e with
       | KeyError =>
           logger_error
             "Unable to find signal for %r in signal registry.Use typhon.plugins.register_signal()"
       | _ => logger_exception "Unable to create a connection to %r"
       end).

(** ** The life of a connection: the calls that reach it *)

Inductive Call :=
| call_send_new_value (value severity : PyVal)
| call_send_metadata (kwargs : gmap string PyVal)
| call_put_value (new_val : PyVal)
| call_add_listener (channel : Channel)
| call_remove_listener (channel : Channel) (destroying : bool)
| call_close.

Definition perform (self : Conn) (c : Call) : M unit :=
  match c with
  | call_send_new_value value severity => send_new_value self value severity
  | call_send_metadata kwargs => send_metadata self kwargs
  | call_put_value new_val => put_value self new_val
  | call_add_listener channel => add_listener self channel
  | call_remove_listener channel destroying =>
      remove_listener self channel destroying
  | call_close => close self
  end.

(** The calls arrive one after the other from the event loop and from the
    signal's callbacks; a call that raises does not stop the next one. *)
Fixpoint life (self : Conn) (cs : list Call) (w : World) : World :=
  match cs with
  | [] => w
  | c :: cs' => life self cs' (post (perform self c w))
  end.

(** What the calls do to the outside, from first to last. *)
Fixpoint history (self : Conn) (cs : list Call) (w : World) : list Event :=
  match cs with
  | [] => []
  | c :: cs' =>
      events (perform self c w) ++ history self cs' (post (perform self c w))
  end.

End Typhon.

Arguments Signal Ext : clear implicits.
Arguments Extern Ext : clear implicits.
Arguments Conn Ext : clear implicits.
Arguments World Ext : clear implicits.
Arguments Out Ext A : clear implicits.
Arguments M Ext A : clear implicits.
Arguments MkOut {Ext A} res post events.
Arguments res {Ext A} o.
Arguments post {Ext A} o.
Arguments events {Ext A} o.

(** ** Sample environments, for the examples *)

(** Entry [0] of each row of ophyd's [_type_map]. *)
Definition ophyd_type_map : gmap string (list PyType) :=
  {[ "number" := [float]; "array" := [ndarray];
     "string" := [str]; "integer" := [int] ]}.

(** The builtin calls the examples make: [int], [float] and [str] on the
    values below behave as in CPython; any other argument is outside the
    examples and is answered with [NotImplementedError]. *)
Definition builtin_call (t : PyType) (v : PyVal) : Res PyVal :=
  match t, v with
  | int, VInt z => Ok (VInt z)
  | int, VBool b => Ok (VInt (if b then 1 else 0))
  | float, VFloat m e => Ok (VFloat m e)
  | float, VInt z =>
      if (Z.abs z <=? 2 ^ 53)%Z then Ok (VFloat z 0)
      else Raise (OtherError "NotImplementedError")
  | str, VStr s => Ok (VStr s)
  | int, VNone | float, VNone => Raise TypeError
  | _, _ => Raise (OtherError "NotImplementedError")
  end.

(** A signal with fixed answers: [value] to [get], [{n: desc}] to
    [describe], [written] to [put]. *)
Definition fixed_signal (n : string) (conn : bool) (value : Res PyVal)
    (desc : Res (gmap string PyVal)) (written : Res unit) : Signal unit :=
  {| name := n;
     connected := fun _ => conn;
     get := fun x => (value, x);
     put := fun _ x => (written, x);
     describe := fun x =>
       (match desc with Ok d => Ok {[ n := d ]} | Raise e => Raise e end, x);
     subscribe := fun ev x => (Ok (match ev with SUB_VALUE => 0 | SUB_META => 1 end), x);
     unsubscribe := fun _ x => (Ok tt, x) |}.

(** Widgets that take every emission, except those on the signals in
    [broken], which raise [TypeError]. *)
Definition widgets (broken : list QtSignal) : Extern unit :=
  {| call_type := builtin_call;
     _type_map := ophyd_type_map;
     emit := fun q _ x =>
       (if bool_decide (q ∈ broken) then Raise TypeError else Ok tt, x);
     pydm := fun _ x => (Ok tt, x);
     disconnect := fun _ _ _ x => (true, x);
     get_address := channel_address |}.

Definition empty_world : World unit :=
  {| ext := tt; signal_registry := ∅; signal_type := ∅;
     connections := ∅; channels := ∅; next_oid := 0 |}.

Definition connection_to (s : Signal unit) : Conn unit :=
  {| oid := 0; address := name s; signal := s; _cid := 0; _mid := 1 |}.

Definition read_write_channel (n : string) : Channel :=
  {| channel_id := 7; channel_address := n;
     value_signal := Some [int; float; str; ndarray] |}.

(** The signals of the examples: a float signal "A" with value 1, unit mm
    and precision 0; an enumerated signal "B" at 0; a signal that cannot be
    reached. *)
Definition number_desc : gmap string PyVal :=
  {[ "dtype" := VStr "number"; "precision" := VInt 0; "units" := VStr "mm" ]}.

Definition number_signal : Signal unit :=
  fixed_signal "A" true (Ok (VInt 1)) (Ok number_desc) (Ok tt).

Definition enum_desc : gmap string PyVal :=
  {[ "dtype" := VStr "integer";
     "enum_strs" := VList [VStr "Open"; VStr "Closed"] ]}.

Definition enum_signal : Signal unit :=
  fixed_signal "B" true (Ok (VInt 0)) (Ok enum_desc) (Ok tt).

Definition dead_signal : Signal unit :=
  fixed_signal "ded" false (Raise (OtherError "DisconnectedError"))
    (Raise (OtherError "DisconnectedError"))
    (Raise (OtherError "DisconnectedError")).

(** ** The order of an attach, as the listener sees it *)

(** How far an attach has come: nothing emitted yet, the no-alarm severity
    emitted, write access reported, the connection reported, the current
    value sent. *)
Inductive Phase := Fresh | Baselined | Writable | Connected | Valued.

(** The emissions an attach may make in each phase, and the phase they lead
    to.  Events other than emissions are not seen by the listener. *)
Definition attach_step (p : Phase) (e : Event) : option Phase :=
  match e with
  | Emit q v =>
      match p, q, v with
      | Fresh, new_severity_signal, VInt Z0 => Some Baselined
      | Baselined, write_access_signal, VBool true => Some Writable
      | Writable, connection_state_signal, VBool true => Some Connected
      | Connected, prec_signal, _
      | Connected, enum_strings_signal, _
      | Connected, unit_signal, _ => Some Connected
      | Connected, new_value_signal _, _ => Some Valued
      | _, _, _ => None
      end
  | _ => Some p
  end.

Fixpoint attach_run (p : Phase) (l : list Event) : option Phase :=
  match l with
  | [] => Some p
  | e :: l' =>
      match attach_step p e with
      | Some p' => attach_run p' l'
      | None => None
      end
  end.

Global Instance Phase_eq_dec : EqDecision Phase.
Proof. solve_decision. Defined.

Definition is_emit (e : Event) : bool :=
  match e with Emit _ _ => true | _ => false end.


(** ** The vocabulary of the properties

    *** Reading a trace *)

(** The emissions of a trace: the Qt signal and the value. *)
Definition emissions (l : list Event) : list (QtSignal * PyVal) :=
  omap (fun e => match e with Emit q v => Some (q, v) | _ => None end) l.

(** The value emissions of a trace: the typed overload and the value. *)
Definition value_emissions (l : list Event) : list (PyType * PyVal) :=
  omap (fun e => match e with
                 | Emit (new_value_signal t) v => Some (t, v)
                 | _ => None
                 end) l.

(** The signals of the three fields an attach reports, and the emissions
    of a trace on them. *)
Definition is_metadata_signal (q : QtSignal) : bool :=
  bool_decide (q ∈ [prec_signal; enum_strings_signal; unit_signal]).

Definition metadata_emissions (l : list Event) : list (QtSignal * PyVal) :=
  filter (λ qv, is_metadata_signal qv.1 = true) (emissions l).

(** A trace without emissions. *)
Definition silent (l : list Event) : Prop :=
  forallb (fun e => negb (is_emit e)) l = true.

(** The log entries of an attach that is given up, of an overload that
    cannot be disconnected, and of a connection that cannot be
    constructed. *)
Definition gather_log : Event :=
  Log EXCEPTION
    "Failed to gather proper information from signal %r to initialize %r".

Definition unhook_log : Event :=
  Log DEBUG "Unable to disconnect value_signal from %s for type %s".

Definition plugin_log (e : Exn) : Event :=
  match e with
  | KeyError =>
      Log ERROR
        "Unable to find signal for %r in signal registry.Use typhon.plugins.register_signal()"
  | _ => Log EXCEPTION "Unable to create a connection to %r"
  end.

(** *** What the callbacks are to send *)

(** The information [send_metadata] works on: the received fields alone, or
    merged on top of the entry of [describe()] when there is one. *)
Definition merged (snapshot : option (gmap string PyVal))
    (kwargs : gmap string PyVal) : gmap string PyVal :=
  match snapshot with
  | Some described => kwargs ∪ described
  | None => kwargs
  end.

(** The same with the enumeration strings turned into a tuple. *)
Definition normalised (info : gmap string PyVal) : Res (gmap string PyVal) :=
  match info !! "enum_strs" with
  | None | Some VNone => Ok info
  | Some enum_strs =>
      match tuple enum_strs with
      | Ok t => Ok (<["enum_strs" := t]> info)
      | Raise e => Raise e
      end
  end.

(** What is to be broadcast for [info]: for each known key, in the order of
    the table, the value on the signal of the key, when the key is there
    and its value is not [None]. *)
Definition to_broadcast (info : gmap string PyVal) : list (QtSignal * PyVal) :=
  omap (fun entry : string * QtSignal =>
          match info !! entry.1 with
          | Some v => if is_not_None v then Some (entry.2, v) else None
          | None => None
          end) _key_to_signal.

(** What the metadata loop of an attach sends for one field: the value of
    the field when it is true as a condition ([if val:]), a list as a
    tuple. *)
Definition reported (desc : gmap string PyVal) (entry : string * QtSignal) :
    option (QtSignal * PyVal) :=
  let val := default VNone (desc !! entry.1) in
  match truth val with
  | Ok true =>
      Some (entry.2, match val with VList l => VTuple l | _ => val end)
  | _ => None
  end.

(** And for the three fields, in the order of the loop. *)
Definition to_report (desc : gmap string PyVal) : list (QtSignal * PyVal) :=
  omap (reported desc) reported_fields.

Section Vocabulary.

Context {Ext : Type} {E : Extern Ext}.

(** The value handed on, as a function of the noted type: [t(v)], [v]
    itself for [np.ndarray], a [TypeError] while no type is noted. *)
Definition coerced (t : option PyType) (v : PyVal) : Res PyVal :=
  match t with
  | Some ndarray => Ok v
  | Some c => call_type c v
  | None => Raise TypeError
  end.

(** What a callback with value [v] delivers when the noted type is [c]:
    the coerced value on the overload of [c], or nothing when the coercion
    raises. *)
Definition delivered (c : PyType) (v : PyVal) : list (PyType * PyVal) :=
  match coerced (Some c) v with
  | Ok v' => [(c, v')]
  | Raise _ => []
  end.

(** *** Properties of computations *)

(** A computation keeps a property of the state when the property holds
    afterwards if it held before, whether the computation returns or
    raises. *)
Definition keeps (I : World Ext → Prop) {A} (m : M Ext A) : Prop :=
  ∀ w, I w → I (post (m w)).

(** The property does not depend on the outside state. *)
Definition ext_stable (I : World Ext → Prop) : Prop :=
  ∀ x w, I w → I (with_ext x w).

(** The connection [self] has noted the type [c]. *)
Definition latched (self : Conn Ext) (c : PyType) (w : World Ext) : Prop :=
  signal_type w !! oid self = Some c.

(** The registry and the plugin's connections are as given. *)
Definition plugin_state (conns : gmap string (Conn Ext))
    (reg : gmap string (Signal Ext)) (w : World Ext) : Prop :=
  connections w = conns ∧ signal_registry w = reg.

(** The plugin has recorded the channels [seen]. *)
Definition recorded (seen : gset nat) (w : World Ext) : Prop :=
  channels w = seen.

(** The state in which PyDM runs the constructor for a channel the plugin
    has not recorded: the channel is recorded first. *)
Definition noted (channel : Channel) (w : World Ext) : World Ext :=
  with_channels ({[ channel_id channel ]} ∪ channels w) w.

(** A computation that makes no emission. *)
Definition quiet {A} (m : M Ext A) : Prop := ∀ w, silent (events (m w)).

(** [steps p m Q]: from phase [p], the trace of [m] is one the listener
    accepts, and when [m] returns the phase reached satisfies [Q]. *)
Definition steps {A} (p : Phase) (m : M Ext A) (Q : Phase → Prop) : Prop :=
  ∀ w, ∃ p', attach_run p (events (m w)) = Some p' ∧
             (raised (res (m w)) = false → Q p').

End Vocabulary.

Arguments coerced : simpl never.

(** *** More ways to read a trace *)

(** The writes of a trace: the signal and the value handed to [put]. *)
Definition puts (l : list Event) : list (string * PyVal) :=
  omap (fun e => match e with SignalPut n v => Some (n, v) | _ => None end) l.

(** The hooks of a trace: the channel and the overload of each edit-request
    signal connected to [put_value]; and the ones disconnected. *)
Definition connects (l : list Event) : list (nat * PyType) :=
  omap (fun e => match e with Connect ch t => Some (ch, t) | _ => None end) l.

Definition disconnects (l : list Event) : list (nat * PyType) :=
  omap (fun e => match e with Disconnect ch t => Some (ch, t) | _ => None end) l.

(** Kinds of events. *)
Definition is_put (e : Event) : bool :=
  match e with SignalPut _ _ => true | _ => false end.

Definition is_connect (e : Event) : bool :=
  match e with Connect _ _ => true | _ => false end.

Definition is_signal_call (e : Event) : bool :=
  match e with
  | SignalGet _ | SignalDescribe _ | SignalPut _ _
  | SignalSubscribe _ _ | SignalUnsubscribe _ _ => true
  | _ => false
  end.

(** An emission on one of the seven signals of [_key_to_signal], or no
    emission at all. *)
Definition is_other_emit (e : Event) : bool :=
  match e with
  | Emit q _ => negb (bool_decide (q ∈ _key_to_signal.*2))
  | _ => false
  end.

(** A trace without events of kind [P]. *)
Definition without (P : Event → bool) (l : list Event) : Prop :=
  forallb (fun e => negb (P e)) l = true.

Section ExtraVocabulary.

Context {Ext : Type} {E : Extern Ext}.

(** A computation that makes no event of kind [P]. *)
Definition avoids (P : Event → bool) {A} (m : M Ext A) : Prop :=
  ∀ w, without P (events (m w)).

(** The first signal of a list that has the name [n]. *)
Definition first_named (n : string) (ss : list (Signal Ext)) :
    option (Signal Ext) :=
  List.find (fun s => String.eqb (name s) n) ss.

(** What one call writes to the signal: a [put_value] whose coercion
    returns writes the coerced value, and nothing else writes. *)
Definition written (self : Conn Ext) (call : Call) (w : World Ext) :
    list (string * PyVal) :=
  match call with
  | call_put_value new_val =>
      match coerced (signal_type w !! oid self) new_val with
      | Ok v => [(name (signal self), v)]
      | Raise _ => []
      end
  | _ => []
  end.

(** The state [w] differs from [w0] at most in the outside state and in
    the type noted by the connection [self]. *)
Definition touches_only (self : Conn Ext) (w0 w : World Ext) : Prop :=
  signal_registry w = signal_registry w0 ∧
  connections w = connections w0 ∧
  next_oid w = next_oid w0 ∧
  ∀ other, other ≠ oid self → signal_type w !! other = signal_type w0 !! other.

End ExtraVocabulary.

(** *** More samples *)

(** A signal whose dtype is not in ophyd's table, and a channel whose
    edit-request signal has two overloads only. *)
Definition boolean_desc : gmap string PyVal := {[ "dtype" := VStr "boolean" ]}.

Definition boolean_signal : Signal unit :=
  fixed_signal "C" true (Ok (VBool true)) (Ok boolean_desc) (Ok tt).

Definition partial_channel : Channel :=
  {| channel_id := 7; channel_address := "A"; value_signal := Some [int; str] |}.

(** ** Properties

    *** The order automaton *)

Lemma attach_run_app p l1 l2 :
  attach_run p (l1 ++ l2) =
  match attach_run p l1 with
  | Some p' => attach_run p' l2
  | None => None
  end.
Proof.
  revert p. induction l1 as [|e l1 IH]; intros p; simpl; [reflexivity|].
  destruct (attach_step p e); [apply IH|reflexivity].
Qed.

Lemma attach_run_silent p l :
  forallb (fun e => negb (is_emit e)) l = true → attach_run p l = Some p.
Proof.
  induction l as [|e l IH]; simpl; [reflexivity|].
  intros H. apply andb_prop in H as [He Hl].
  destruct e; simpl in *; try discriminate He; auto.
Qed.

(** A run that changes phase splits at the first event that does. *)
Lemma attach_run_split p l q :
  attach_run p l = Some q → p ≠ q →
  ∃ a e b p1,
    l = a ++ e :: b ∧ attach_step p e = Some p1 ∧ p1 ≠ p ∧
    attach_run p1 b = Some q.
Proof.
  induction l as [|e l IH]; simpl; intros Hrun Hne.
  - congruence.
  - destruct (attach_step p e) as [p1|] eqn:Hstep; [|discriminate Hrun].
    destruct (decide (p1 = p)) as [->|Hp1].
    + destruct (IH Hrun Hne) as (a & e' & b & p2 & -> & ? & ? & ?).
      exists (e :: a), e', b, p2. auto.
    + exists [], e, l, p1. auto.
Qed.

Lemma attach_step_from_Fresh e p :
  attach_step Fresh e = Some p → p ≠ Fresh →
  e = Emit new_severity_signal (VInt 0) ∧ p = Baselined.
Proof.
  destruct e as [| q v | | | | | | | | |]; simpl; try congruence.
  destruct q; try discriminate. destruct v as [| |[| |]| | | | |]; try discriminate.
  intros [= <-] _. auto.
Qed.

Lemma attach_step_from_Baselined e p :
  attach_step Baselined e = Some p → p ≠ Baselined →
  e = Emit write_access_signal (VBool true) ∧ p = Writable.
Proof.
  destruct e as [| q v | | | | | | | | |]; simpl; try congruence.
  destruct q; try discriminate. destruct v as [|[]| | | | | |]; try discriminate.
  intros [= <-] _. auto.
Qed.

Lemma attach_step_from_Writable e p :
  attach_step Writable e = Some p → p ≠ Writable →
  e = Emit connection_state_signal (VBool true) ∧ p = Connected.
Proof.
  destruct e as [| q v | | | | | | | | |]; simpl; try congruence.
  destruct q; try discriminate. destruct v as [|[]| | | | | |]; try discriminate.
  intros [= <-] _. auto.
Qed.

(** A trace that has reached [Connected] holds the three reports, in
    order. *)
Lemma attach_run_Connected l :
  attach_run Fresh l = Some Connected →
  ∃ a b c d,
    l = a ++ Emit new_severity_signal (VInt 0) ::
        b ++ Emit write_access_signal (VBool true) ::
        c ++ Emit connection_state_signal (VBool true) :: d.
Proof.
  intros H.
  apply attach_run_split in H as (a & e1 & l1 & p1 & -> & Hs1 & Hp1 & H);
    [|discriminate].
  apply attach_step_from_Fresh in Hs1 as [-> ->]; [|exact Hp1].
  apply attach_run_split in H as (b & e2 & l2 & p2 & -> & Hs2 & Hp2 & H);
    [|discriminate].
  apply attach_step_from_Baselined in Hs2 as [-> ->]; [|exact Hp2].
  apply attach_run_split in H as (c & e3 & l3 & p3 & -> & Hs3 & Hp3 & H);
    [|discriminate].
  apply attach_step_from_Writable in Hs3 as [-> ->]; [|exact Hp3].
  exists a, b, c, l3. reflexivity.
Qed.

(** In an accepted trace, a value is emitted only once the connection has
    been reported, and that only after write access and the no-alarm
    severity. *)
Lemma attach_run_value_after_connected l pre t v post :
  is_Some (attach_run Fresh l) →
  l = pre ++ Emit (new_value_signal t) v :: post →
  ∃ a b c d,
    pre = a ++ Emit new_severity_signal (VInt 0) ::
          b ++ Emit write_access_signal (VBool true) ::
          c ++ Emit connection_state_signal (VBool true) :: d.
Proof.
  intros [p Hrun] ->. rewrite attach_run_app in Hrun.
  destruct (attach_run Fresh pre) as [p1|] eqn:Hpre; [|discriminate Hrun].
  simpl in Hrun. destruct p1; try discriminate Hrun.
  by apply attach_run_Connected.
Qed.

Section Properties.

Context {Ext : Type} {E : Extern Ext}.
Implicit Types (w : World Ext) (self : Conn Ext) (s : Signal Ext).
Implicit Types (I : World Ext → Prop).
Implicit Types (conns : gmap string (Conn Ext)) (reg : gmap string (Signal Ext)).

(** *** How results, worlds and traces compose *)

Lemma res_bind {A B} (m : M Ext A) (k : A -> M Ext B) w :
  res (bind m k w) =
  match res (m w) with
  | Ok a => res (k a (post (m w)))
  | Raise e => Raise e
  end.
Proof.
  unfold bind. destruct (m w) as [[a|e] w1 t1]; simpl; [|reflexivity].
  destruct (k a w1); reflexivity.
Qed.

Lemma post_bind {A B} (m : M Ext A) (k : A -> M Ext B) w :
  post (bind m k w) =
  match res (m w) with
  | Ok a => post (k a (post (m w)))
  | Raise e => post (m w)
  end.
Proof.
  unfold bind. destruct (m w) as [[a|e] w1 t1]; simpl; [|reflexivity].
  destruct (k a w1); reflexivity.
Qed.

Lemma events_bind {A B} (m : M Ext A) (k : A -> M Ext B) w :
  events (bind m k w) =
  events (m w) ++
  match res (m w) with
  | Ok a => events (k a (post (m w)))
  | Raise e => []
  end.
Proof.
  unfold bind. destruct (m w) as [[a|e] w1 t1]; simpl.
  - destruct (k a w1); reflexivity.
  - symmetry. apply app_nil_r.
Qed.

Lemma res_try_except {A} (m : M Ext A) (h : Exn -> M Ext A) w :
  res (try_except m h w) =
  match res (m w) with
  | Ok a => Ok a
  | Raise e => res (h e (post (m w)))
  end.
Proof.
  unfold try_except. destruct (m w) as [[a|e] w1 t1]; simpl; [reflexivity|].
  destruct (h e w1); reflexivity.
Qed.

Lemma post_try_except {A} (m : M Ext A) (h : Exn -> M Ext A) w :
  post (try_except m h w) =
  match res (m w) with
  | Ok a => post (m w)
  | Raise e => post (h e (post (m w)))
  end.
Proof.
  unfold try_except. destruct (m w) as [[a|e] w1 t1]; simpl; [reflexivity|].
  destruct (h e w1); reflexivity.
Qed.

Lemma events_try_except {A} (m : M Ext A) (h : Exn -> M Ext A) w :
  events (try_except m h w) =
  events (m w) ++
  match res (m w) with
  | Ok a => []
  | Raise e => events (h e (post (m w)))
  end.
Proof.
  unfold try_except. destruct (m w) as [[a|e] w1 t1]; simpl.
  - symmetry. apply app_nil_r.
  - destruct (h e w1); reflexivity.
Qed.

Lemma coerce_coerced t v w : coerce t v w = MkOut (coerced t v) w [].
Proof. destruct t as [[]|]; reflexivity. Qed.

(** *** The registry *)

(** C3. [register_signal s] never raises.  When [name s] is absent it puts
    [s] under that name; when a signal is already registered under
    [name s], it logs one debug line and leaves the whole state, and so the
    first-registered signal, as it was. *)
Theorem register_signal_keeps_first s w :
  let o := register_signal s w in
  res o = Ok tt ∧
  (signal_registry w !! name s = None →
     signal_registry (post o) = <[name s := s]> (signal_registry w) ∧
     signal_registry (post o) !! name s = Some s ∧
     events o = []) ∧
  (∀ s0, signal_registry w !! name s = Some s0 →
     post o = w ∧
     signal_registry (post o) !! name s = Some s0 ∧
     events o = [Log DEBUG "A signal named %s is already registered!"]).
Proof.
  unfold register_signal, bind, gets, modify, logger_debug, tell. simpl.
  destruct (decide (is_Some (signal_registry w !! name s))) as [Hin|Hout]; simpl.
  - split; [reflexivity|]. split.
    + intros Hnone. rewrite Hnone in Hin. destruct Hin as [? Hin]. discriminate Hin.
    + intros s0 Hs0. auto.
  - split; [reflexivity|]. split.
    + intros _. split; [reflexivity|]. split; [|reflexivity].
      apply lookup_insert_eq.
    + intros s0 Hs0. exfalso. apply Hout. rewrite Hs0. eauto.
Qed.

(** *** put_value *)

Lemma put_value_returns self new_val w : res (put_value self new_val w) = Ok tt.
Proof.
  unfold put_value. rewrite res_try_except.
  destruct (res _) as [[]|e]; reflexivity.
Qed.

(** C4. [put_value] never raises.  The value is coerced to the noted type
    (passed on unchanged for [np.ndarray]) and [put] is called with the
    coerced value; when the coercion raises, [put] is not called; whatever
    the coercion or [put] raises is logged and handed to
    [raise_to_operator]. *)
Theorem put_value_contained self new_val w :
  let o := put_value self new_val w in
  let n := name (signal self) in
  res o = Ok tt ∧
  match coerced (signal_type w !! oid self) new_val with
  | Ok v =>
      match (put (signal self) v (ext w)).1 with
      | Ok _ =>
          events o = [Log DEBUG "Putting value %r to %r"; SignalPut n v]
      | Raise e =>
          events o = [Log DEBUG "Putting value %r to %r"; SignalPut n v;
                      Log EXCEPTION "Unable to put %r to %s";
                      RaiseToOperator e]
      end
  | Raise e =>
      events o = [Log EXCEPTION "Unable to put %r to %s"; RaiseToOperator e]
  end.
Proof.
  unfold put_value, try_except, bind, get_signal_type, gets. simpl.
  rewrite coerce_coerced.
  destruct (coerced (signal_type w !! oid self) new_val) as [v|e]; simpl.
  - unfold signal_put, extern.
    destruct (put (signal self) v (ext w)) as [[[]|e] x]; simpl; auto.
  - auto.
Qed.

(** C10. While no type is noted ([self.signal_type] is [None]),
    [put_value] fails at the coercion for every value: [put] is not called,
    the [TypeError] is logged and handed to [raise_to_operator], nothing is
    raised and the state is left as it was. *)
Theorem put_value_before_first_value self new_val w
    (Hnone : signal_type w !! oid self = None) :
  let o := put_value self new_val w in
  res o = Ok tt ∧
  events o = [Log EXCEPTION "Unable to put %r to %s"; RaiseToOperator TypeError] ∧
  (∀ n v, SignalPut n v ∉ events o) ∧
  post o = w.
Proof.
  unfold put_value, try_except, bind, get_signal_type, gets. simpl.
  rewrite coerce_coerced, Hnone. simpl.
  repeat split.
  intros n v Hin. 
  repeat (apply elem_of_cons in Hin as [Hin|Hin]; [discriminate Hin|]).
  by apply elem_of_nil in Hin.
Qed.

(** *** The type latch *)

(** **** Invariants of the state

    A computation keeps a property of the state when it holds afterwards if
    it held before, whether the computation returns or raises. *)

Lemma keeps_ret I {A} (a : A) : keeps I (ret a).
Proof. intros w H. exact H. Qed.

Lemma keeps_raise I {A} e : keeps I (raise (A:=A) e).
Proof. intros w H. exact H. Qed.

Lemma keeps_lift I {A} (r : Res A) : keeps I (lift r).
Proof. intros w H. exact H. Qed.

Lemma keeps_tell I e : keeps I (tell e).
Proof. intros w H. exact H. Qed.

Lemma keeps_gets I {A} (f : World Ext → A) : keeps I (gets f).
Proof. intros w H. exact H. Qed.

Lemma keeps_modify I f : (∀ w, I w → I (f w)) → keeps I (modify f).
Proof. intros Hf w H. apply Hf, H. Qed.

Lemma keeps_extern I {A} e (f : Ext → Res A * Ext) :
  ext_stable I → keeps I (extern e f).
Proof.
  intros HI w H. unfold extern. destruct (f (ext w)). simpl. apply HI, H.
Qed.

Lemma keeps_bind I {A B} (m : M Ext A) (k : A → M Ext B) :
  keeps I m → (∀ a, keeps I (k a)) → keeps I (bind m k).
Proof.
  intros Hm Hk w H. rewrite post_bind.
  destruct (res (m w)); [apply Hk|]; apply Hm, H.
Qed.

Lemma keeps_try_except I {A} (m : M Ext A) (h : Exn → M Ext A) :
  keeps I m → (∀ e, keeps I (h e)) → keeps I (try_except m h).
Proof.
  intros Hm Hh w H. rewrite post_try_except.
  destruct (res (m w)); [|apply Hh]; apply Hm, H.
Qed.

Lemma keeps_try_except_only I {A} p (m : M Ext A) (h : Exn → M Ext A) :
  keeps I m → (∀ e, keeps I (h e)) → keeps I (try_except_only p m h).
Proof.
  intros Hm Hh. apply keeps_try_except; [exact Hm|].
  intros e. destruct (p e); [apply Hh|apply keeps_raise].
Qed.

Lemma keeps_for_each I {A} (l : list A) (body : A → M Ext unit) :
  (∀ a, keeps I (body a)) → keeps I (for_each l body).
Proof.
  intros Hb. induction l as [|a l IH]; simpl.
  - apply keeps_ret.
  - apply keeps_bind; [apply Hb|]. intros _. exact IH.
Qed.

Create HintDb keeps.
#[local] Hint Resolve keeps_ret keeps_raise keeps_lift keeps_tell keeps_gets
  keeps_extern keeps_bind keeps_try_except keeps_try_except_only
  keeps_for_each : keeps.

(** Splits on the tests a body makes, then closes each branch from the
    hints. *)
Ltac keeps_branches :=
  repeat match goal with
         | |- @keeps _ _ _ _ => solve [auto 20 with keeps]
         | |- ∀ _, _ => intros ?
         | |- @keeps _ _ _ (bind _ _) => apply keeps_bind
         | |- @keeps _ _ _ (try_except _ _) => apply keeps_try_except
         | |- @keeps _ _ _ (try_except_only _ _ _) => apply keeps_try_except_only
         | |- @keeps _ _ _ (if ?b then _ else _) => destruct b
         | |- @keeps _ _ _ (match ?x with _ => _ end) => destruct x
         end.

Lemma keeps_put_value I self v : ext_stable I → keeps I (put_value self v).
Proof.
  intros HI.
  unfold put_value, coerce, call, get_signal_type, logger_debug,
    logger_exception, raise_to_operator, signal_put.
  keeps_branches.
Qed.

(** Noting the type is the one step that writes [signal_type]; the
    callbacks keep what it keeps. *)
Lemma keeps_send_new_value I self v sev :
  ext_stable I → keeps I (note_type self) →
  keeps I (send_new_value self v sev).
Proof.
  intros HI Hnote. unfold send_new_value. apply keeps_bind; [exact Hnote|].
  unfold emit_value, emit_severity, coerce, call, get_signal_type,
    new_value_signal_getitem, qt_emit, logger_exception.
  keeps_branches.
Qed.

Lemma keeps_send_metadata I self kwargs :
  ext_stable I → keeps I (send_metadata self kwargs).
Proof.
  intros HI.
  unfold send_metadata, current_info, signal_connected, signal_describe,
    getitem, normalise_enum_strs.
  keeps_branches.
  apply keeps_for_each. intros [key q].
  unfold send_key, qt_emit, logger_debug. keeps_branches.
Qed.

Lemma keeps_add_listener I self channel :
  ext_stable I → keeps I (note_type self) →
  keeps I (add_listener self channel).
Proof.
  intros HI Hnote.
  unfold add_listener, announce, gather, report, logger_debug,
    logger_exception, super, qt_emit, signal_get, signal_describe, getitem.
  keeps_branches.
  - apply keeps_for_each. intros [field q].
    unfold report_field, qt_emit. keeps_branches.
  - by apply keeps_send_new_value.
  - apply keeps_for_each. intros t.
    unfold hook_put, value_signal_getitem, qt_connect, logger_debug.
    keeps_branches.
Qed.

Lemma keeps_remove_listener I self channel destroying :
  ext_stable I → keeps I (remove_listener self channel destroying).
Proof.
  intros HI. unfold remove_listener, logger_debug, super.
  keeps_branches;
    apply keeps_for_each; intros t;
    unfold unhook_put, value_signal_getitem, qt_disconnect, logger_debug;
    keeps_branches.
Qed.

Lemma keeps_close I self : ext_stable I → keeps I (close self).
Proof. intros HI. unfold close, signal_unsubscribe. keeps_branches. Qed.

Lemma keeps_perform I self call :
  ext_stable I → keeps I (note_type self) → keeps I (perform self call).
Proof.
  intros HI Hnote. destruct call; simpl;
    auto using keeps_send_new_value, keeps_send_metadata, keeps_put_value,
      keeps_add_listener, keeps_remove_listener, keeps_close.
Qed.

Lemma keeps_life I self calls w :
  ext_stable I → keeps I (note_type self) → I w → I (life self calls w).
Proof.
  intros HI Hnote. revert w.
  induction calls as [|call calls IH]; intros w H; simpl.
  - exact H.
  - apply IH, keeps_perform; assumption.
Qed.

Section Latch.

Variables (self : Conn Ext) (c : PyType).

Lemma latched_ext : ext_stable (latched self c).
Proof. intros x w H. exact H. Qed.

(** With a type noted, the test [if not self.signal_type] fails and the
    type is left alone. *)
Lemma keeps_note_type : keeps (latched self c) (note_type self).
Proof.
  intros w H. unfold note_type, bind, get_signal_type, gets. simpl.
  unfold latched in H. rewrite H. exact H.
Qed.

Lemma latched_life calls w : latched self c w → latched self c (life self calls w).
Proof. apply keeps_life; [apply latched_ext|apply keeps_note_type]. Qed.

Lemma note_type_latched w :
  latched self c w → note_type self w = MkOut (Ok tt) w [].
Proof.
  intros H. unfold note_type, bind, get_signal_type, gets. simpl.
  unfold latched in H. rewrite H. reflexivity.
Qed.

(** The first [try] block never raises; it emits the coerced value on the
    overload of the noted type, or nothing when the coercion raises. *)
Lemma emit_value_spec v w :
  let o := emit_value self v w in
  let t := signal_type w !! oid self in
  res o = Ok tt ∧
  signal_type (post o) = signal_type w ∧
  match t, coerced t v with
  | Some c', Ok v' =>
      match (emit (new_value_signal c') v' (ext w)).1 with
      | Ok _ => events o = [Emit (new_value_signal c') v']
      | Raise _ =>
          events o = [Emit (new_value_signal c') v';
                      Log EXCEPTION "Unable to update %r with value %r."]
      end
  | _, _ => events o = [Log EXCEPTION "Unable to update %r with value %r."]
  end.
Proof.
  unfold emit_value, try_except, bind, get_signal_type, gets. simpl.
  rewrite coerce_coerced.
  destruct (signal_type w !! oid self) as [c'|]; simpl.
  - destruct (coerced (Some c') v) as [v'|e]; simpl; [|auto].
    unfold qt_emit, extern.
    destruct (emit (new_value_signal c') v' (ext w)) as [[[]|e] x]; simpl; auto.
  - auto.
Qed.

(** The severity block never raises either, and emits the severity
    whenever it is not [None]. *)
Lemma emit_severity_spec sev w :
  let o := emit_severity sev w in
  res o = Ok tt ∧
  signal_type (post o) = signal_type w ∧
  value_emissions (events o) = [] ∧
  (∀ n, SignalDescribe n ∉ events o) ∧
  (sev ≠ VNone → Emit new_severity_signal sev ∈ events o).
Proof.
  unfold emit_severity, try_except, qt_emit, extern.
  destruct (is_not_None sev) eqn:Hsev; simpl.
  - destruct (emit new_severity_signal sev (ext w)) as [[[]|e] x]; simpl;
      (repeat split; [set_solver..|intros _; set_solver]).
  - repeat split; [set_solver|]. intros Hne. destruct sev; try discriminate Hsev.
    contradiction.
Qed.

(** With the type noted, a value callback does not ask the signal again:
    it coerces, emits on the overload of the noted type, and never
    raises. *)
Lemma send_new_value_latched v sev w :
  latched self c w →
  let o := send_new_value self v sev w in
  res o = Ok tt ∧
  value_emissions (events o) = delivered c v ∧
  (∀ n, SignalDescribe n ∉ events o).
Proof.
  intros H. simpl. unfold send_new_value.
  rewrite res_bind, events_bind, note_type_latched by exact H. simpl.
  rewrite res_bind, events_bind.
  destruct (emit_value_spec v w) as (Hres & Hty & Hev).
  destruct (emit_severity_spec sev (post (emit_value self v w)))
    as (Hres' & _ & Hval & Hdesc & _).
  rewrite Hres. split; [exact Hres'|].
  unfold value_emissions in *. rewrite omap_app, Hval, app_nil_r.
  unfold latched in H. rewrite H in Hev. unfold delivered.
  destruct (coerced (Some c) v) as [v'|e].
  - destruct ((emit (new_value_signal c) v' (ext w)).1);
      rewrite Hev; (split; [reflexivity|]); intros n Hin;
      apply elem_of_app in Hin as [Hin|Hin]; [set_solver|by eapply Hdesc|set_solver|by eapply Hdesc].
  - rewrite Hev. split; [reflexivity|]. intros n Hin.
    apply elem_of_app in Hin as [Hin|Hin]; [set_solver|by eapply Hdesc].
Qed.

(** The first value callback: no type is noted yet, the signal describes
    itself, and entry [0] of the row of its dtype is noted. *)
Lemma note_type_first w d info k rest x :
  signal_type w !! oid self = None →
  describe (signal self) (ext w) = (Ok d, x) →
  d !! name (signal self) = Some info →
  info !! "dtype" = Some (VStr k) →
  _type_map !! k = Some (c :: rest) →
  let o := note_type self w in
  res o = Ok tt ∧ latched self c (post o) ∧
  events o = [SignalDescribe (name (signal self))].
Proof.
  intros Hnone Hdesc Hname Hdtype Hmap.
  unfold note_type, bind, get_signal_type, gets, signal_describe, extern,
    getitem, type_map_getitem, getitem, item0, set_signal_type, modify,
    latched.
  simpl. rewrite Hnone. simpl. rewrite Hdesc. simpl. rewrite Hname. simpl.
  rewrite Hdtype. simpl. rewrite Hmap. simpl.
  split; [reflexivity|]. split; [|reflexivity]. apply lookup_insert_eq.
Qed.

(** C1. When the first value callback finds no type noted and the signal
    describes itself with a dtype of the table, the type [c] of that row is
    noted; [c] is one of the four supported types.  From then on, whatever
    calls reach the connection, the noted type stays [c], and every value
    callback emits its value coerced to [c] (unchanged when [c] is
    [np.ndarray]) on the overload of [c], without asking the signal for
    its dtype again. *)
Theorem signal_type_latch w value severity d info k rest x
    (Hnone : signal_type w !! oid self = None)
    (Hdesc : describe (signal self) (ext w) = (Ok d, x))
    (Hname : d !! name (signal self) = Some info)
    (Hdtype : info !! "dtype" = Some (VStr k))
    (Hmap : _type_map !! k = Some (c :: rest)) :
  let o := send_new_value self value severity w in
  c ∈ supported_types ∧
  res o = Ok tt ∧
  signal_type (post o) !! oid self = Some c ∧
  value_emissions (events o) = delivered c value ∧
  ∀ calls,
    let w' := life self calls (post o) in
    signal_type w' !! oid self = Some c ∧
    ∀ v sev,
      let o' := send_new_value self v sev w' in
      res o' = Ok tt ∧
      value_emissions (events o') = delivered c v ∧
      (∀ n, SignalDescribe n ∉ events o').
Proof.
  destruct (note_type_first w d info k rest x Hnone Hdesc Hname Hdtype Hmap)
    as (Hres & Hlatch & Hev).
  set (w1 := post (note_type self w)) in *.
  destruct (emit_value_spec value w1) as (Hres1 & Hty1 & Hev1).
  destruct (emit_severity_spec severity (post (emit_value self value w1)))
    as (Hres2 & Hty2 & Hval2 & _ & _).
  assert (Hpost : latched self c (post (send_new_value self value severity w))).
  { unfold send_new_value. rewrite post_bind, Hres. fold w1.
    rewrite post_bind, Hres1. unfold latched. rewrite Hty2, Hty1. exact Hlatch. }
  simpl. split; [|split; [|split; [exact Hpost|split]]].
  - unfold supported_types. destruct c; set_solver.
  - unfold send_new_value. rewrite res_bind, Hres. fold w1.
    rewrite res_bind, Hres1. exact Hres2.
  - unfold send_new_value. rewrite events_bind, Hres, Hev. fold w1.
    rewrite events_bind, Hres1. unfold value_emissions in *. simpl.
    rewrite omap_app, Hval2, app_nil_r.
    unfold latched in Hlatch. rewrite Hlatch in Hev1. unfold delivered.
    destruct (coerced (Some c) value) as [v'|e].
    + destruct ((emit (new_value_signal c) v' (ext w1)).1);
        rewrite Hev1; reflexivity.
    + rewrite Hev1. reflexivity.
  - intros calls. pose proof (latched_life calls _ Hpost) as Hlife.
    split; [exact Hlife|]. intros v sev.
    apply send_new_value_latched, Hlife.
Qed.

End Latch.

(** *** Attaching a listener *)

Lemma silent_app l1 l2 : silent l1 → silent l2 → silent (l1 ++ l2).
Proof. unfold silent. intros H1 H2. rewrite forallb_app, H1, H2. reflexivity. Qed.

Lemma quiet_ret {A} (a : A) : quiet (ret (Ext:=Ext) a).
Proof. intros w. reflexivity. Qed.

Lemma quiet_raise {A} e : quiet (raise (Ext:=Ext) (A:=A) e).
Proof. intros w. reflexivity. Qed.

Lemma quiet_lift {A} (r : Res A) : quiet (lift (Ext:=Ext) r).
Proof. intros w. reflexivity. Qed.

Lemma quiet_gets {A} (f : World Ext → A) : quiet (gets f).
Proof. intros w. reflexivity. Qed.

Lemma quiet_modify (f : World Ext → World Ext) : quiet (modify f).
Proof. intros w. reflexivity. Qed.

Lemma quiet_tell e : is_emit e = false → quiet (tell (Ext:=Ext) e).
Proof. intros He w. unfold silent. simpl. rewrite He. reflexivity. Qed.

Lemma quiet_extern {A} e (f : Ext → Res A * Ext) :
  is_emit e = false → quiet (extern e f).
Proof.
  intros He w. unfold extern, silent. destruct (f (ext w)). simpl.
  rewrite He. reflexivity.
Qed.

Lemma quiet_bind {A B} (m : M Ext A) (k : A → M Ext B) :
  quiet m → (∀ a, quiet (k a)) → quiet (bind m k).
Proof.
  intros Hm Hk w. rewrite events_bind. apply silent_app; [apply Hm|].
  destruct (res (m w)); [apply Hk|reflexivity].
Qed.

Lemma quiet_try_except {A} (m : M Ext A) (h : Exn → M Ext A) :
  quiet m → (∀ e, quiet (h e)) → quiet (try_except m h).
Proof.
  intros Hm Hh w. rewrite events_try_except. apply silent_app; [apply Hm|].
  destruct (res (m w)); [reflexivity|apply Hh].
Qed.

Lemma quiet_try_except_only {A} p (m : M Ext A) (h : Exn → M Ext A) :
  quiet m → (∀ e, quiet (h e)) → quiet (try_except_only p m h).
Proof.
  intros Hm Hh. apply quiet_try_except; [exact Hm|].
  intros e. destruct (p e); [apply Hh|apply quiet_raise].
Qed.

Lemma quiet_for_each {A} (l : list A) (body : A → M Ext unit) :
  (∀ a, quiet (body a)) → quiet (for_each l body).
Proof.
  intros Hb. induction l as [|a l IH]; simpl.
  - apply quiet_ret.
  - apply quiet_bind; [apply Hb|]. intros _. exact IH.
Qed.

Create HintDb quiet.
#[local] Hint Resolve quiet_ret quiet_raise quiet_lift quiet_gets quiet_modify
  quiet_bind quiet_try_except quiet_try_except_only quiet_for_each : quiet.
#[local] Hint Extern 1 (@quiet _ _ (tell _)) =>
  apply quiet_tell; reflexivity : quiet.
#[local] Hint Extern 1 (@quiet _ _ (extern _ _)) =>
  apply quiet_extern; reflexivity : quiet.

Ltac quiet_branches :=
  repeat match goal with
         | |- @quiet _ _ _ => solve [auto 20 with quiet]
         | |- ∀ _, _ => intros ?
         | |- @quiet _ _ (bind _ _) => apply quiet_bind
         | |- @quiet _ _ (try_except _ _) => apply quiet_try_except
         | |- @quiet _ _ (try_except_only _ _ _) => apply quiet_try_except_only
         | |- @quiet _ _ (if ?b then _ else _) => destruct b
         | |- @quiet _ _ (match ?x with _ => _ end) => destruct x
         end.

Lemma steps_quiet {A} p (m : M Ext A) : quiet m → steps p m (eq p).
Proof.
  intros Hm w. exists p. split; [|reflexivity].
  apply attach_run_silent, Hm.
Qed.

Lemma steps_weaken {A} p (m : M Ext A) (Q Q' : Phase → Prop) :
  steps p m Q → (∀ p', Q p' → Q' p') → steps p m Q'.
Proof.
  intros Hm HQ w. destruct (Hm w) as (p' & Hrun & Hp').
  exists p'. auto.
Qed.

Lemma steps_bind {A B} p (m : M Ext A) (k : A → M Ext B) Q1 Q2 :
  steps p m Q1 → (∀ a p1, Q1 p1 → steps p1 (k a) Q2) →
  steps p (bind m k) Q2.
Proof.
  intros Hm Hk w. destruct (Hm w) as (p1 & Hrun & Hp1).
  rewrite events_bind, res_bind, attach_run_app, Hrun.
  destruct (res (m w)) as [a|e].
  - destruct (Hk a p1 (Hp1 eq_refl) (post (m w))) as (p2 & Hrun2 & Hp2).
    exists p2. auto.
  - exists p1. split; [reflexivity|]. discriminate.
Qed.

Lemma steps_emit p q v p' :
  attach_step p (Emit q v) = Some p' → steps p (qt_emit q v) (eq p').
Proof.
  intros Hstep w. exists p'. unfold qt_emit, extern.
  destruct (emit q v (ext w)) as [r x]. simpl in *.
  rewrite Hstep. auto.
Qed.

Lemma steps_for_each {A} p (l : list A) (body : A → M Ext unit) :
  (∀ a, a ∈ l → steps p (body a) (eq p)) → steps p (for_each l body) (eq p).
Proof.
  induction l as [|a l IH]; simpl; intros Hb.
  - apply steps_quiet, quiet_ret.
  - eapply steps_bind; [apply Hb; left|]. intros _ p1 <-.
    apply IH. intros a' Ha'. apply Hb. by right.
Qed.

Lemma steps_announce channel : steps Fresh (announce channel) (eq Baselined).
Proof.
  unfold announce.
  eapply steps_bind; [apply steps_quiet; unfold logger_debug; quiet_branches|].
  intros _ ? <-.
  eapply steps_bind; [apply steps_quiet; unfold super; quiet_branches|].
  intros _ ? <-. apply steps_emit. reflexivity.
Qed.

Lemma quiet_gather self : quiet (gather self).
Proof.
  unfold gather, signal_get, signal_describe, getitem. quiet_branches.
Qed.

Lemma quiet_note_type self : quiet (note_type self).
Proof.
  unfold note_type, get_signal_type, signal_describe, getitem,
    type_map_getitem, getitem, item0, set_signal_type.
  quiet_branches.
Qed.

Lemma quiet_hook_put channel overloads t :
  quiet (hook_put (Ext:=Ext) channel overloads t).
Proof.
  unfold hook_put, value_signal_getitem, qt_connect, logger_debug.
  quiet_branches.
Qed.

Lemma steps_report_field desc entry :
  entry.2 ∈ [prec_signal; enum_strings_signal; unit_signal] →
  steps Connected (report_field desc entry) (eq Connected).
Proof.
  intros Hq. unfold report_field.
  eapply steps_bind; [apply steps_quiet; quiet_branches|].
  intros b ? <-. destruct b; [|apply steps_quiet, quiet_ret].
  eapply steps_bind; [apply steps_quiet; quiet_branches|].
  intros v ? <-. apply steps_emit.
  destruct entry as [field q]. simpl in *.
  repeat (apply elem_of_cons in Hq as [->|Hq]; [reflexivity|]).
  by apply elem_of_nil in Hq.
Qed.

Lemma steps_emit_value self v :
  steps Connected (emit_value self v) (λ p, p = Connected ∨ p = Valued).
Proof.
  intros w. destruct (emit_value_spec self v w) as (Hres & _ & Hev).
  rewrite Hres.
  destruct (signal_type w !! oid self) as [c|].
  - destruct (coerced (Some c) v) as [v'|e].
    + destruct ((emit (new_value_signal c) v' (ext w)).1);
        rewrite Hev; exists Valued; auto.
    + rewrite Hev. exists Connected. auto.
  - rewrite Hev. exists Connected. auto.
Qed.

Lemma steps_send_new_value self v :
  steps Connected (send_new_value self v VNone)
    (λ p, p = Connected ∨ p = Valued).
Proof.
  unfold send_new_value.
  eapply steps_bind; [apply steps_quiet, quiet_note_type|].
  intros _ ? <-.
  eapply steps_bind; [apply steps_emit_value|].
  intros _ p Hp. eapply steps_weaken; [apply steps_quiet, quiet_ret|].
  intros ? <-. exact Hp.
Qed.

Lemma steps_report self channel val desc :
  steps Baselined (report self channel val desc)
    (λ p, p = Connected ∨ p = Valued).
Proof.
  unfold report.
  eapply steps_bind; [apply steps_emit; reflexivity|]. intros _ ? <-.
  eapply steps_bind; [apply steps_emit; reflexivity|]. intros _ ? <-.
  eapply steps_bind.
  { apply steps_for_each. intros entry Hentry. apply steps_report_field.
    repeat (apply elem_of_cons in Hentry as [->|Hentry]; [set_solver|]).
    by apply elem_of_nil in Hentry. }
  intros _ ? <-.
  eapply steps_bind; [apply steps_send_new_value|].
  intros _ p Hp. eapply steps_weaken.
  - apply steps_quiet. destruct (value_signal channel).
    + apply quiet_for_each. intros t. apply quiet_hook_put.
    + apply quiet_ret.
  - intros ? <-. exact Hp.
Qed.

Lemma steps_add_listener self channel :
  steps Fresh (add_listener self channel) (λ _, True).
Proof.
  unfold add_listener.
  eapply steps_bind; [apply steps_announce|]. intros _ ? <-.
  eapply steps_bind.
  { apply steps_quiet. apply quiet_try_except.
    - apply quiet_bind; [apply quiet_gather|]. intros g. apply quiet_ret.
    - intros e. unfold logger_exception. quiet_branches. }
  intros [[val desc]|] ? <-.
  - eapply steps_weaken; [apply steps_report|]. auto.
  - eapply steps_weaken; [apply steps_quiet, quiet_ret|]. auto.
Qed.

Lemma silent_no_emit l q v : silent l → Emit q v ∉ l.
Proof.
  unfold silent. intros Hl Hin.
  rewrite forallb_forall in Hl. apply list_elem_of_In in Hin.
  apply Hl in Hin. discriminate Hin.
Qed.

Lemma announce_returns channel w :
  res (announce channel w) = Ok tt →
  events (announce channel w) =
    [Log DEBUG "Adding %r ..."; Super (Base_add_listener (channel_id channel));
     Emit new_severity_signal (VInt 0)].
Proof.
  unfold announce, bind, logger_debug, tell, super, qt_emit, extern. simpl.
  destruct (pydm (Base_add_listener (channel_id channel)) (ext w))
    as [[[]|e] x]; simpl; [|discriminate].
  destruct (emit new_severity_signal (VInt 0) x) as [[[]|e] x']; simpl;
    [reflexivity|discriminate].
Qed.

Lemma gather_returns self w val desc :
  res (gather self w) = Ok (val, desc) →
  events (gather self w) =
    [SignalGet (name (signal self)); SignalDescribe (name (signal self))].
Proof.
  unfold gather, bind, signal_get, signal_describe, extern, getitem. simpl.
  destruct (get (signal self) (ext w)) as [[v|e] x]; simpl; [|discriminate].
  destruct (describe (signal self) x) as [[d|e] x']; simpl; [|discriminate].
  destruct (d !! name (signal self)); simpl; [reflexivity|discriminate].
Qed.

Lemma report_opens self channel val desc w :
  ∃ rest, events (report self channel val desc w) =
          Emit write_access_signal (VBool true) :: rest.
Proof.
  unfold report. rewrite events_bind. unfold qt_emit at 1, extern.
  destruct (emit write_access_signal (VBool true) (ext w)) as [r x]. simpl.
  eauto.
Qed.

(** When the fetch raises, the attach logs and returns. *)
Lemma add_listener_aborted self channel w e :
  res (announce channel w) = Ok tt →
  res (gather self (post (announce channel w))) = Raise e →
  let o := add_listener self channel w in
  res o = Ok tt ∧
  events o =
    events (announce channel w) ++
    events (gather self (post (announce channel w))) ++ [gather_log].
Proof.
  intros Hann Hg. simpl. unfold add_listener. split.
  - rewrite res_bind, Hann.
    rewrite res_bind, res_try_except, post_try_except, !res_bind, Hg.
    reflexivity.
  - rewrite events_bind, Hann.
    rewrite events_bind, res_try_except, events_try_except, !res_bind,
      !events_bind, Hg. simpl. rewrite !app_nil_r. reflexivity.
Qed.

(** When the fetch returns, the attach goes on with [report]. *)
Lemma add_listener_fetched self channel w val desc :
  res (announce channel w) = Ok tt →
  res (gather self (post (announce channel w))) = Ok (val, desc) →
  let o := add_listener self channel w in
  let w2 := post (gather self (post (announce channel w))) in
  res o = res (report self channel val desc w2) ∧
  events o =
    events (announce channel w) ++
    events (gather self (post (announce channel w))) ++
    events (report self channel val desc w2).
Proof.
  intros Hann Hg. simpl. unfold add_listener. split.
  - rewrite res_bind, Hann.
    rewrite res_bind, res_try_except, post_try_except, !res_bind,
      !post_bind, Hg. reflexivity.
  - rewrite events_bind, Hann.
    rewrite events_bind, res_try_except, events_try_except,
      post_try_except, !res_bind, !events_bind, !post_bind, Hg.
    simpl. rewrite !app_nil_r. reflexivity.
Qed.


(** *** Detaching a listener *)

(** One round of the loop: no exception leaves it; the disconnect is called
    exactly when the channel has the overload. *)
Lemma unhook_put_spec self channel overloads t w :
  let o := unhook_put self channel overloads t w in
  let d := Disconnect (channel_id channel) t in
  res o = Ok tt ∧
  (t ∈ overloads → events o = [d] ∨ events o = [d; unhook_log]) ∧
  (t ∉ overloads → events o = [unhook_log]).
Proof.
  unfold unhook_put, try_except_only, try_except, bind, value_signal_getitem,
    qt_disconnect, extern, logger_debug, tell, unhook_log.
  destruct (decide (t ∈ overloads)) as [Hin|Hout]; simpl.
  - destruct (disconnect (channel_id channel) t (oid self) (ext w))
      as [[] x]; simpl; (split; [reflexivity|]); split; auto; contradiction.
  - split; [reflexivity|]. split; [contradiction|reflexivity].
Qed.

Lemma unhook_loop self channel overloads (l : list PyType) w :
  let o := for_each l (unhook_put self channel overloads) w in
  res o = Ok tt ∧
  (∀ t, Disconnect (channel_id channel) t ∈ events o ↔ t ∈ l ∧ t ∈ overloads) ∧
  Forall (λ e, (∃ t, e = Disconnect (channel_id channel) t) ∨ e = unhook_log)
    (events o).
Proof.
  revert w. induction l as [|t0 l IH]; intros w; simpl.
  - split; [reflexivity|]. split; [|constructor].
    intros t. set_solver.
  - destruct (unhook_put_spec self channel overloads t0 w) as (Hres & Hin & Hout).
    rewrite res_bind, events_bind, Hres.
    destruct (IH (post (unhook_put self channel overloads t0 w)))
      as (Hres' & Hiff & Hall).
    split; [exact Hres'|]. split.
    + intros t. rewrite elem_of_app, Hiff, elem_of_cons.
      destruct (decide (t0 ∈ overloads)) as [H0|H0].
      * destruct (Hin H0) as [-> | ->]; unfold unhook_log; set_solver.
      * rewrite (Hout H0). unfold unhook_log. split.
        -- intros [Hd|[? ?]]; [|auto].
           apply list_elem_of_singleton in Hd. discriminate Hd.
        -- intros [[->|?] ?]; [contradiction|auto].
    + apply Forall_app. split; [|exact Hall].
      destruct (decide (t0 ∈ overloads)) as [H0|H0].
      * destruct (Hin H0) as [-> | ->];
          repeat (apply Forall_cons; split); eauto; by apply Forall_nil.
      * rewrite (Hout H0). apply Forall_cons. split; [auto|by apply Forall_nil].
Qed.

(** C9. [remove_listener] logs, unhooks, and then always calls the removal
    of the base class.  Between the two, [put_value] is disconnected from
    the overload of a supported type exactly when [destroying] is false and
    the channel has an edit-request signal with that overload; a missing
    overload and a slot that was not connected only leave a debug line.
    The result of the call is that of the base class. *)
Theorem remove_listener_unhooks self channel destroying w :
  let o := remove_listener self channel destroying w in
  let ch := channel_id channel in
  ∃ unhooks x done,
    events o =
      Log DEBUG "Removing %r ..." :: unhooks ++
      Super (Base_remove_listener ch destroying) :: done ∧
    (∀ t, Disconnect ch t ∈ unhooks ↔
          destroying = false ∧
          ∃ overloads, value_signal channel = Some overloads ∧ t ∈ overloads) ∧
    Forall (λ e, (∃ t, e = Disconnect ch t) ∨ e = unhook_log) unhooks ∧
    (destroying = true → unhooks = []) ∧
    res o = (pydm (Base_remove_listener ch destroying) x).1 ∧
    done = match res o with
           | Ok _ => [Log DEBUG "Successfully removed %r"]
           | Raise _ => []
           end.
Proof.
  simpl. unfold remove_listener.
  set (unhook := match value_signal channel with
                 | Some overloads =>
                     if negb destroying
                     then for_each supported_types (unhook_put self channel overloads)
                     else ret tt
                 | None => ret tt
                 end).
  assert (Hunhook : ∀ w',
    res (unhook w') = Ok tt ∧
    (∀ t, Disconnect (channel_id channel) t ∈ events (unhook w') ↔
          destroying = false ∧
          ∃ overloads, value_signal channel = Some overloads ∧ t ∈ overloads) ∧
    Forall (λ e, (∃ t, e = Disconnect (channel_id channel) t) ∨ e = unhook_log)
      (events (unhook w')) ∧
    (destroying = true → events (unhook w') = [])).
  { intros w'. unfold unhook.
    destruct (value_signal channel) as [overloads|]; [destruct destroying|]; simpl.
    - repeat split; try constructor; set_solver.
    - destruct (unhook_loop self channel overloads supported_types w')
        as (Hres & Hiff & Hall).
      split; [exact Hres|]. split; [|split; [exact Hall|discriminate]].
      intros t. rewrite Hiff. split.
      + intros [_ Ht]. eauto.
      + intros [_ (ov & [= <-] & Ht)]. split; [|exact Ht].
        unfold supported_types. destruct t; set_solver.
    - repeat split; try constructor; set_solver. }
  destruct (Hunhook w) as (Hres & Hiff & Hall & Hdestroying).
  set (w2 := post (unhook w)).
  exists (events (unhook w)), (ext w2),
    (match (pydm (Base_remove_listener (channel_id channel) destroying) (ext w2)).1 with
     | Ok _ => [Log DEBUG "Successfully removed %r"]
     | Raise _ => []
     end).
  rewrite !events_bind, !res_bind. simpl. rewrite Hres. fold w2.
  unfold super, extern.
  destruct (pydm (Base_remove_listener (channel_id channel) destroying) (ext w2))
    as [[[]|e] x]; simpl; auto 10.
Qed.

(** *** Metadata *)

Lemma known_keys :
  _key_to_signal =
    [ ("units", unit_signal); ("precision", prec_signal);
      ("lower_ctrl_limit", lower_ctrl_limit_signal);
      ("upper_ctrl_limit", upper_ctrl_limit_signal);
      ("enum_strs", enum_strings_signal);
      ("connected", connection_state_signal);
      ("write_access", write_access_signal) ].
Proof. reflexivity. Qed.

Lemma to_broadcast_iff info q v :
  (q, v) ∈ to_broadcast info ↔
  ∃ key, (key, q) ∈ _key_to_signal ∧ info !! key = Some v ∧ v ≠ VNone.
Proof.
  unfold to_broadcast. rewrite list_elem_of_omap. split.
  - intros ([key q'] & Hin & Hsome). simpl in Hsome.
    destruct (info !! key) as [v'|] eqn:Hkey; [|discriminate Hsome].
    destruct (is_not_None v') eqn:Hnn; [|discriminate Hsome].
    injection Hsome as <- <-. exists key. repeat split; auto.
    intros ->. discriminate Hnn.
  - intros (key & Hin & Hkey & Hv). exists (key, q). split; [exact Hin|].
    simpl. rewrite Hkey. destruct v; try reflexivity. contradiction.
Qed.

Lemma normalise_enum_strs_normalised info w :
  normalise_enum_strs info w = MkOut (normalised info) w [].
Proof.
  unfold normalise_enum_strs, normalised, bind, lift, ret.
  destruct (info !! "enum_strs") as [v|]; simpl; [|reflexivity].
  destruct v; simpl; reflexivity.
Qed.

(** One round of the loop never raises and emits exactly when the key is
    there with a value that is not [None]. *)
Lemma send_key_spec info entry w :
  let o := send_key info entry w in
  res o = Ok tt ∧
  emissions (events o) =
    match info !! entry.1 with
    | Some v => if is_not_None v then [(entry.2, v)] else []
    | None => []
    end.
Proof.
  unfold send_key. destruct (info !! entry.1) as [v|]; [|auto].
  destruct (is_not_None v); [|auto].
  unfold try_except, qt_emit, extern, logger_debug, tell.
  destruct (emit entry.2 v (ext w)) as [[[]|e] x]; simpl; auto.
Qed.

Lemma send_keys_spec info (l : list (string * QtSignal)) w :
  let o := for_each l (send_key info) w in
  res o = Ok tt ∧
  emissions (events o) =
    omap (fun entry : string * QtSignal =>
            match info !! entry.1 with
            | Some v => if is_not_None v then Some (entry.2, v) else None
            | None => None
            end) l.
Proof.
  revert w. induction l as [|entry l IH]; intros w; simpl; [auto|].
  destruct (send_key_spec info entry w) as (Hres & Hev).
  destruct (IH (post (send_key info entry w))) as (Hres' & Hev').
  rewrite res_bind, events_bind, Hres. split; [exact Hres'|].
  unfold emissions in *. rewrite omap_app, Hev, Hev'.
  destruct (info !! entry.1) as [v|]; [|reflexivity].
  destruct (is_not_None v); reflexivity.
Qed.

Lemma current_info_spec self kwargs w snapshot :
  match snapshot with
  | Some described =>
      connected (signal self) (ext w) = true ∧
      ∃ d, (describe (signal self) (ext w)).1 = Ok d ∧
           d !! name (signal self) = Some described
  | None => connected (signal self) (ext w) = false
  end →
  let o := current_info self kwargs w in
  res o = Ok (merged snapshot kwargs) ∧ silent (events o).
Proof.
  intros Hsnap. unfold current_info, bind, signal_connected, gets. simpl.
  destruct snapshot as [described|].
  - destruct Hsnap as (-> & d & Hd & Hname).
    unfold signal_describe, extern, getitem.
    destruct (describe (signal self) (ext w)) as [r x]. simpl in Hd. subst r.
    simpl. rewrite Hname. simpl. split; reflexivity.
  - rewrite Hsnap. simpl. split; reflexivity.
Qed.

Lemma emissions_silent l : silent l → emissions l = [].
Proof.
  unfold silent, emissions. induction l as [|e l IH]; simpl; [reflexivity|].
  intros H. apply andb_prop in H as [He Hl].
  destruct e; simpl in *; try discriminate He; auto.
Qed.

(** C7. [send_metadata] works on the received fields, merged on top of the
    entry of [describe()] when the signal reports itself connected (a
    received field wins over a described one).  With the enumeration
    strings turned into a tuple, it broadcasts, for each of the seven known
    keys in turn, the value on the signal of the key exactly when the key
    is there and its value is not [None]; the other keys are passed over
    and nothing is raised. *)
Theorem send_metadata_broadcasts self kwargs w :
  let o := send_metadata self kwargs w in
  let s := signal self in
  (∀ snapshot info,
     match snapshot with
     | Some described =>
         connected s (ext w) = true ∧
         ∃ d, (describe s (ext w)).1 = Ok d ∧ d !! name s = Some described
     | None => connected s (ext w) = false
     end →
     normalised (merged snapshot kwargs) = Ok info →
     res o = Ok tt ∧
     emissions (events o) = to_broadcast info ∧
     (∀ q v, (q, v) ∈ emissions (events o) ↔
             ∃ key, (key, q) ∈ _key_to_signal ∧ info !! key = Some v ∧ v ≠ VNone)) ∧
  (∀ described key v,
     kwargs !! key = Some v → merged (Some described) kwargs !! key = Some v) ∧
  (∀ described key,
     kwargs !! key = None →
     merged (Some described) kwargs !! key = described !! key) ∧
  (∀ info l,
     info !! "enum_strs" = Some (VList l) →
     normalised info = Ok (<["enum_strs" := VTuple l]> info)).
Proof.
  simpl. split; [|split; [|split]].
  - intros snapshot info Hsnap Hnorm.
    destruct (current_info_spec self kwargs w snapshot Hsnap) as (Hres & Hev).
    assert (Hgoal : res (send_metadata self kwargs w) = Ok tt ∧
                    emissions (events (send_metadata self kwargs w)) =
                    to_broadcast info).
    { unfold send_metadata.
      rewrite res_bind, events_bind, Hres. cbv beta.
      rewrite res_bind, events_bind.
      rewrite normalise_enum_strs_normalised, Hnorm. simpl.
      destruct (send_keys_spec info _key_to_signal
                  (post (current_info self kwargs w))) as (Hres' & Hev').
      split; [exact Hres'|].
      unfold emissions in *. rewrite omap_app.
      fold (emissions (events (current_info self kwargs w))).
      rewrite (emissions_silent _ Hev). exact Hev'. }
    destruct Hgoal as (Hres' & Hev'). split; [exact Hres'|].
    split; [exact Hev'|]. intros q v. rewrite Hev'. apply to_broadcast_iff.
  - intros described key v Hkey. unfold merged.
    by apply lookup_union_Some_l.
  - intros described key Hkey. unfold merged.
    by apply lookup_union_r.
  - intros info l Hl. unfold normalised. rewrite Hl. reflexivity.
Qed.

(** *** The metadata an attach reports *)

Lemma bind_returns {A B} (m : M Ext A) (k : A → M Ext B) w b :
  res (bind m k w) = Ok b →
  ∃ a, res (m w) = Ok a ∧ res (k a (post (m w))) = Ok b.
Proof.
  rewrite res_bind. destruct (res (m w)) as [a|e]; [eauto|discriminate].
Qed.

Lemma emissions_app l1 l2 : emissions (l1 ++ l2) = emissions l1 ++ emissions l2.
Proof. apply omap_app. Qed.

Lemma metadata_emissions_app l1 l2 :
  metadata_emissions (l1 ++ l2) = metadata_emissions l1 ++ metadata_emissions l2.
Proof. unfold metadata_emissions. rewrite emissions_app. apply filter_app. Qed.

Lemma metadata_emissions_silent l : silent l → metadata_emissions l = [].
Proof.
  intros H. unfold metadata_emissions. rewrite emissions_silent by exact H.
  reflexivity.
Qed.

(** A round that returns has emitted what [reported] says. *)
Lemma report_field_spec desc entry w :
  res (report_field desc entry w) = Ok tt →
  emissions (events (report_field desc entry w)) =
    option_list (reported desc entry).
Proof.
  unfold report_field, reported, bind, lift, qt_emit, extern.
  destruct (truth (default VNone (desc !! entry.1))) as [[]|e]; simpl;
    [|reflexivity|discriminate].
  destruct (default VNone (desc !! entry.1)) as [| | | | |l| |]; simpl;
    match goal with
    | |- context [emit ?q ?v ?x] => destruct (emit q v x) as [[[]|?] ?]
    end; simpl; intros H; try discriminate H; reflexivity.
Qed.

Lemma report_fields_spec desc (l : list (string * QtSignal)) w :
  res (for_each l (report_field desc) w) = Ok tt →
  emissions (events (for_each l (report_field desc) w)) = omap (reported desc) l.
Proof.
  revert w. induction l as [|entry l IH]; intros w; simpl; [reflexivity|].
  intros H. apply bind_returns in H as ([] & Hentry & Hrest).
  rewrite events_bind, Hentry, emissions_app.
  rewrite (report_field_spec _ _ _ Hentry), (IH _ Hrest).
  destruct (reported desc entry); reflexivity.
Qed.

Lemma to_report_metadata desc :
  filter (λ qv, is_metadata_signal qv.1 = true) (to_report desc) = to_report desc.
Proof.
  unfold to_report, reported_fields, reported. simpl.
  repeat match goal with
         | |- context [truth ?v] => destruct (truth v) as [[]|?]; simpl
         end; reflexivity.
Qed.

Lemma metadata_emissions_send_new_value self v w :
  metadata_emissions (events (send_new_value self v VNone w)) = [].
Proof.
  unfold send_new_value. rewrite events_bind, metadata_emissions_app.
  rewrite (metadata_emissions_silent _ (quiet_note_type self w)). simpl.
  destruct (res (note_type self w)) as [[]|e]; [|reflexivity].
  rewrite events_bind, metadata_emissions_app.
  destruct (emit_value_spec self v (post (note_type self w))) as (Hres & _ & Hev).
  rewrite Hres. simpl. rewrite app_nil_r.
  destruct (signal_type (post (note_type self w)) !! oid self) as [c|].
  - destruct (coerced (Some c) v) as [v'|e]; [|rewrite Hev; reflexivity].
    destruct ((emit (new_value_signal c) v' (ext (post (note_type self w)))).1);
      rewrite Hev; reflexivity.
  - rewrite Hev. reflexivity.
Qed.

Lemma to_report_iff desc q v :
  (q, v) ∈ to_report desc ↔
  ∃ field val,
    (field, q) ∈ reported_fields ∧ desc !! field = Some val ∧
    truth val = Ok true ∧
    v = match val with VList l => VTuple l | _ => val end.
Proof.
  unfold to_report. rewrite list_elem_of_omap. split.
  - intros ([field q'] & Hin & Hsome). unfold reported in Hsome. simpl in Hsome.
    destruct (desc !! field) as [val|] eqn:Hfield; simpl in Hsome;
      [|discriminate Hsome].
    destruct (truth val) as [[]|] eqn:Htruth; try discriminate Hsome.
    injection Hsome as <- <-. exists field, val. auto.
  - intros (field & val & Hin & Hfield & Htruth & ->).
    exists (field, q). split; [exact Hin|].
    unfold reported. simpl. rewrite Hfield. simpl. rewrite Htruth. reflexivity.
Qed.

(** C8. What an attach sends of the described metadata.  On an attach that
    goes through (the default setup and the baseline returned, the fetch
    gave value and metadata, and nothing after it raised), the emissions on
    the precision, enumeration strings and unit signals are, in this order,
    those of the fields whose described value is true as a condition
    (there, not [None], not zero, not empty), a list sent as a tuple.  The
    loop tests [if val:] where its comment has "if we have metadata to send
    for field": a field that is available with a false value, such as a
    precision of 0, is not emitted, although the claim has every available
    field emitted and the loop of [send_metadata], which tests
    [is not None], does emit it. *)
Theorem add_listener_reports_fields self channel w val desc
    (Hannounce : res (announce channel w) = Ok tt)
    (Hgather : res (gather self (post (announce channel w))) = Ok (val, desc))
    (Hreturns : res (add_listener self channel w) = Ok tt) :
  let o := add_listener self channel w in
  metadata_emissions (events o) = to_report desc ∧
  (∀ q v, (q, v) ∈ metadata_emissions (events o) ↔
          ∃ field val,
            (field, q) ∈ reported_fields ∧ desc !! field = Some val ∧
            truth val = Ok true ∧
            v = match val with VList l => VTuple l | _ => val end) ∧
  (∀ field q val,
     (field, q) ∈ reported_fields → desc !! field = Some val →
     truth val = Ok false → ∀ v, (q, v) ∉ metadata_emissions (events o)).
Proof.
  simpl.
  destruct (add_listener_fetched self channel w val desc Hannounce Hgather)
    as (Hres & Hev).
  set (w2 := post (gather self (post (announce channel w)))) in *.
  rewrite Hreturns in Hres. symmetry in Hres.
  assert (Heq : metadata_emissions (events (add_listener self channel w)) =
                to_report desc).
  { rewrite Hev, !metadata_emissions_app.
    rewrite (announce_returns _ _ Hannounce).
    rewrite (metadata_emissions_silent _ (quiet_gather self _)). simpl.
    unfold report in *.
    apply bind_returns in Hres as ([] & Hwa & Hres).
    apply bind_returns in Hres as ([] & Hconn & Hres).
    apply bind_returns in Hres as ([] & Hfields & Hres).
    rewrite events_bind, Hwa, metadata_emissions_app.
    rewrite events_bind, Hconn, metadata_emissions_app.
    rewrite events_bind, Hfields, metadata_emissions_app.
    rewrite events_bind, metadata_emissions_app.
    rewrite metadata_emissions_send_new_value.
    unfold metadata_emissions at 3.
    rewrite (report_fields_spec _ _ _ Hfields).
    fold (to_report desc). rewrite to_report_metadata.
    unfold qt_emit, extern.
    destruct (emit write_access_signal _ _) as [r1 x1].
    destruct (emit connection_state_signal _ _) as [r2 x2]. simpl.
    match goal with
    | |- _ ++ metadata_emissions ?l = _ =>
        assert (Hsilent : silent l); [|rewrite (metadata_emissions_silent _ Hsilent)]
    end.
    { destruct (res (send_new_value _ _ _ _)); [|reflexivity].
      destruct (value_signal channel) as [l|].
      - exact (quiet_for_each supported_types (hook_put channel l)
                 (λ t, quiet_hook_put channel l t) _).
      - reflexivity. }
    apply app_nil_r. }
  split; [exact Heq|]. split.
  - intros q v. rewrite Heq. apply to_report_iff.
  - intros field q val0 Hin Hfield Htruth v Hqv. rewrite Heq in Hqv.
    apply to_report_iff in Hqv as (field' & val' & Hin' & Hfield' & Htruth' & _).
    assert (field' = field) as ->.
    { unfold reported_fields in *.
      repeat (apply elem_of_cons in Hin as [[= -> ->]|Hin]);
        repeat (apply elem_of_cons in Hin' as [[= ->]|Hin']);
        try reflexivity; try discriminate;
        try (by apply elem_of_nil in Hin); by apply elem_of_nil in Hin'. }
    congruence.
Qed.

(** *** Which failures are contained *)

Lemma send_new_value_res self value severity w :
  res (send_new_value self value severity w) = res (note_type self w).
Proof.
  unfold send_new_value. rewrite res_bind.
  destruct (res (note_type self w)) as [[]|e]; [|reflexivity].
  rewrite res_bind.
  destruct (emit_value_spec self value (post (note_type self w))) as (-> & _).
  apply emit_severity_spec.
Qed.

Lemma send_new_value_severity self value severity w :
  res (note_type self w) = Ok tt → severity ≠ VNone →
  Emit new_severity_signal severity ∈ events (send_new_value self value severity w).
Proof.
  intros Hnote Hsev. unfold send_new_value.
  rewrite events_bind, Hnote, events_bind.
  destruct (emit_value_spec self value (post (note_type self w))) as (-> & _).
  rewrite !elem_of_app. right. right.
  by apply emit_severity_spec.
Qed.

Lemma send_metadata_res self kwargs w :
  res (send_metadata self kwargs w) =
  match res (current_info self kwargs w) with
  | Ok info =>
      match normalised info with
      | Ok _ => Ok tt
      | Raise e => Raise e
      end
  | Raise e => Raise e
  end.
Proof.
  unfold send_metadata. rewrite res_bind.
  destruct (res (current_info self kwargs w)) as [info|e]; [|reflexivity].
  rewrite res_bind, normalise_enum_strs_normalised. cbn [res post].
  destruct (normalised info) as [info'|e]; [|reflexivity].
  exact (proj1 (send_keys_spec info' _key_to_signal _)).
Qed.


(** *** The plugin *)

Lemma plugin_state_ext conns reg : ext_stable (plugin_state conns reg).
Proof. intros x w H. exact H. Qed.

Lemma keeps_plugin_state_note_type conns reg self :
  keeps (plugin_state conns reg) (note_type self).
Proof.
  pose proof (plugin_state_ext conns reg) as HI.
  unfold note_type, get_signal_type, signal_describe, getitem,
    type_map_getitem, getitem, item0, set_signal_type.
  keeps_branches; apply keeps_modify; intros w H; exact H.
Qed.

(** Constructing a connection touches neither the registry nor the
    plugin's connections. *)
Lemma keeps_plugin_state_SignalConnection conns reg channel a :
  keeps (plugin_state conns reg) (SignalConnection channel a).
Proof.
  pose proof (plugin_state_ext conns reg) as HI.
  unfold SignalConnection, __init__.
  apply keeps_bind; [apply keeps_gets|]. intros obj.
  apply keeps_bind; [apply keeps_modify; intros w H; exact H|]. intros _.
  apply keeps_bind; [unfold super; keeps_branches|]. intros _.
  apply keeps_bind;
    [unfold set_signal_type; apply keeps_modify; intros w H; exact H|].
  intros _.
  apply keeps_bind; [apply keeps_gets|]. intros r.
  apply keeps_bind; [unfold getitem; keeps_branches|]. intros s.
  apply keeps_bind; [unfold signal_subscribe; keeps_branches|]. intros cid.
  apply keeps_bind; [unfold signal_subscribe; keeps_branches|]. intros mid.
  apply keeps_bind; [|intros _; apply keeps_ret].
  apply keeps_add_listener; [exact HI|apply keeps_plugin_state_note_type].
Qed.

Lemma recorded_ext seen : ext_stable (Ext:=Ext) (recorded seen).
Proof. intros x w H. exact H. Qed.

Lemma keeps_recorded_note_type seen self : keeps (recorded seen) (note_type self).
Proof.
  pose proof (recorded_ext seen) as HI.
  unfold note_type, get_signal_type, signal_describe, getitem,
    type_map_getitem, getitem, item0, set_signal_type.
  keeps_branches; apply keeps_modify; intros w H; exact H.
Qed.

(** Nor does it touch the channels the plugin has recorded. *)
Lemma keeps_recorded_SignalConnection seen channel a :
  keeps (recorded seen) (SignalConnection channel a).
Proof.
  pose proof (recorded_ext seen) as HI.
  unfold SignalConnection, __init__.
  apply keeps_bind; [apply keeps_gets|]. intros obj.
  apply keeps_bind; [apply keeps_modify; intros w H; exact H|]. intros _.
  apply keeps_bind; [unfold super; keeps_branches|]. intros _.
  apply keeps_bind;
    [unfold set_signal_type; apply keeps_modify; intros w H; exact H|].
  intros _.
  apply keeps_bind; [apply keeps_gets|]. intros r.
  apply keeps_bind; [unfold getitem; keeps_branches|]. intros s.
  apply keeps_bind; [unfold signal_subscribe; keeps_branches|]. intros cid.
  apply keeps_bind; [unfold signal_subscribe; keeps_branches|]. intros mid.
  apply keeps_bind; [|intros _; apply keeps_ret].
  apply keeps_add_listener; [exact HI|apply keeps_recorded_note_type].
Qed.

(** A connection cannot be constructed for an address that is not in the
    registry. *)
Lemma init_absent obj channel a w :
  signal_registry w !! a = None →
  raised (res (__init__ obj channel a w)) = true ∧
  ((pydm (Base_init a) (ext w)).1 = Ok tt →
   res (__init__ obj channel a w) = Raise KeyError).
Proof.
  intros Habsent.
  unfold __init__, bind, super, extern, set_signal_type, modify, gets, getitem.
  destruct (pydm (Base_init a) (ext w)) as [[[]|e] x]; simpl.
  - rewrite Habsent. simpl. auto.
  - split; [reflexivity|discriminate].
Qed.

(** A connection that was constructed holds the signal registered under
    its address. *)
Lemma init_returns obj channel a w c :
  res (__init__ obj channel a w) = Ok c →
  signal_registry w !! a = Some (signal c) ∧ address c = a ∧ oid c = obj.
Proof.
  unfold __init__.
  intros H. apply bind_returns in H as ([] & _ & H). revert H.
  set (w1 := post (super (Base_init a) w)).
  intros H. apply bind_returns in H as ([] & _ & H).
  apply bind_returns in H as (reg & Hreg & H).
  injection Hreg as <-.
  apply bind_returns in H as (s & Hs & H).
  apply bind_returns in H as (cid & _ & H).
  apply bind_returns in H as (mid & _ & H).
  apply bind_returns in H as ([] & _ & H).
  injection H as <-. simpl.
  unfold getitem in Hs. simpl in Hs.
  assert (Hw1 : signal_registry w1 = signal_registry w).
  { unfold w1, super, extern. destruct (pydm _ _). reflexivity. }
  rewrite Hw1 in Hs.
  destruct (signal_registry w !! a) as [s'|]; [|discriminate Hs].
  injection Hs as <-. auto.
Qed.

Lemma SignalConnection_absent channel a w :
  signal_registry w !! a = None →
  raised (res (SignalConnection channel a w)) = true.
Proof.
  intros Habsent.
  pose proof (init_absent (next_oid w) channel a
                (with_next_oid (S (next_oid w)) w) Habsent) as [Hraised _].
  unfold SignalConnection, bind, gets, modify. simpl.
  destruct (__init__ _ _ _ _) as [r w' t]. exact Hraised.
Qed.

Lemma SignalConnection_returns channel a w c :
  res (SignalConnection channel a w) = Ok c →
  signal_registry w !! a = Some (signal c).
Proof.
  unfold SignalConnection. intros H.
  apply bind_returns in H as (obj & _ & H).
  apply bind_returns in H as ([] & _ & H).
  apply init_returns in H as (H & _). exact H.
Qed.

Lemma add_connection_returns channel w : res (add_connection channel w) = Ok tt.
Proof.
  unfold add_connection. rewrite res_try_except.
  destruct (res (PyDMPlugin_add_connection channel w)) as [[]|e];
    [reflexivity|].
  destruct e; reflexivity.
Qed.

Lemma add_connection_logs channel w e :
  res (PyDMPlugin_add_connection channel w) = Raise e →
  events (add_connection channel w) =
    events (PyDMPlugin_add_connection channel w) ++ [plugin_log e].
Proof.
  intros H. unfold add_connection. rewrite events_try_except, H.
  destruct e; reflexivity.
Qed.

(** PyDM ignores a channel the plugin has recorded: nothing is called,
    logged or changed. *)
Lemma add_connection_seen channel w :
  channel_id channel ∈ channels w →
  add_connection channel w = MkOut (Ok tt) w [].
Proof.
  intros Hseen.
  unfold add_connection, try_except, PyDMPlugin_add_connection, bind, gets.
  destruct (decide (channel_id channel ∈ channels w)) as [_|Hnot];
    [reflexivity|contradiction].
Qed.

(** With the channel not recorded and no connection under the address yet,
    the plugin's state after [add_connection] is decided by the
    construction; the channel is recorded either way. *)
Lemma add_connection_new channel w :
  channel_id channel ∉ channels w →
  connections w !! get_address channel = None →
  let a := get_address channel in
  let o := add_connection channel w in
  signal_registry (post o) = signal_registry w ∧
  channels (post o) = {[ channel_id channel ]} ∪ channels w ∧
  match res (SignalConnection channel a (noted channel w)) with
  | Ok c =>
      connections (post o) = <[a := c]> (connections w) ∧
      res (PyDMPlugin_add_connection channel w) = Ok tt
  | Raise e =>
      connections (post o) = connections w ∧
      res (PyDMPlugin_add_connection channel w) = Raise e
  end.
Proof.
  intros Hunseen Hnew. simpl.
  pose proof (keeps_plugin_state_SignalConnection (connections w)
                (signal_registry w) channel (get_address channel)
                (noted channel w) (conj eq_refl eq_refl)) as (Hconns & Hreg).
  pose proof (keeps_recorded_SignalConnection
                ({[ channel_id channel ]} ∪ channels w) channel
                (get_address channel) (noted channel w) eq_refl) as Hseen.
  unfold recorded in Hseen.
  unfold add_connection, PyDMPlugin_add_connection.
  rewrite post_try_except, !res_bind, !post_bind. cbn [gets res post].
  destruct (decide (channel_id channel ∈ channels w)) as [Hin|_];
    [contradiction|].
  rewrite !res_bind, !post_bind. cbn [modify gets res post].
  fold (noted channel w).
  replace (connections (noted channel w)) with (connections w) by reflexivity.
  rewrite Hnew. rewrite !res_bind, !post_bind.
  destruct (res (SignalConnection channel (get_address channel)
                   (noted channel w))) as [c|e]; simpl.
  - rewrite Hconns, Hreg, Hseen. auto.
  - destruct e; simpl; rewrite ?Hconns, ?Hreg, ?Hseen; auto.
Qed.

Lemma register_signal_absent s w :
  signal_registry w !! name s = None →
  post (register_signal s w) =
    with_signal_registry (<[name s := s]> (signal_registry w)) w.
Proof.
  intros Habsent. unfold register_signal, bind, gets, modify. simpl.
  destruct (decide (is_Some (signal_registry w !! name s))) as [Hin|Hout];
    [|reflexivity].
  rewrite Habsent in Hin. destruct Hin as [? Hin]. discriminate Hin.
Qed.


(** *** What a computation never does *)

Lemma without_app P l1 l2 : without P l1 → without P l2 → without P (l1 ++ l2).
Proof. unfold without. intros H1 H2. rewrite forallb_app, H1, H2. reflexivity. Qed.

Lemma without_not_in P l e : without P l → P e = true → e ∉ l.
Proof.
  unfold without. intros Hl He Hin.
  rewrite forallb_forall in Hl. apply list_elem_of_In in Hin.
  apply Hl in Hin. rewrite He in Hin. discriminate Hin.
Qed.

Lemma avoids_ret P {A} (a : A) : avoids P (ret (Ext:=Ext) a).
Proof. intros w. reflexivity. Qed.

Lemma avoids_raise P {A} e : avoids P (raise (Ext:=Ext) (A:=A) e).
Proof. intros w. reflexivity. Qed.

Lemma avoids_lift P {A} (r : Res A) : avoids P (lift (Ext:=Ext) r).
Proof. intros w. reflexivity. Qed.

Lemma avoids_gets P {A} (f : World Ext → A) : avoids P (gets f).
Proof. intros w. reflexivity. Qed.

Lemma avoids_modify P (f : World Ext → World Ext) : avoids P (modify f).
Proof. intros w. reflexivity. Qed.

Lemma avoids_tell P e : P e = false → avoids P (tell (Ext:=Ext) e).
Proof. intros He w. unfold without. simpl. rewrite He. reflexivity. Qed.

Lemma avoids_extern P {A} e (f : Ext → Res A * Ext) :
  P e = false → avoids P (extern e f).
Proof.
  intros He w. unfold extern, without. destruct (f (ext w)). simpl.
  rewrite He. reflexivity.
Qed.

Lemma avoids_bind P {A B} (m : M Ext A) (k : A → M Ext B) :
  avoids P m → (∀ a, avoids P (k a)) → avoids P (bind m k).
Proof.
  intros Hm Hk w. rewrite events_bind. apply without_app; [apply Hm|].
  destruct (res (m w)); [apply Hk|reflexivity].
Qed.

Lemma avoids_try_except P {A} (m : M Ext A) (h : Exn → M Ext A) :
  avoids P m → (∀ e, avoids P (h e)) → avoids P (try_except m h).
Proof.
  intros Hm Hh w. rewrite events_try_except. apply without_app; [apply Hm|].
  destruct (res (m w)); [reflexivity|apply Hh].
Qed.

Lemma avoids_try_except_only P {A} p (m : M Ext A) (h : Exn → M Ext A) :
  avoids P m → (∀ e, avoids P (h e)) → avoids P (try_except_only p m h).
Proof.
  intros Hm Hh. apply avoids_try_except; [exact Hm|].
  intros e. destruct (p e); [apply Hh|apply avoids_raise].
Qed.

Lemma avoids_for_each P {A} (l : list A) (body : A → M Ext unit) :
  (∀ a, avoids P (body a)) → avoids P (for_each l body).
Proof.
  intros Hb. induction l as [|a l IH]; simpl.
  - apply avoids_ret.
  - apply avoids_bind; [apply Hb|]. intros _. exact IH.
Qed.

Create HintDb avoids.
#[local] Hint Resolve avoids_ret avoids_raise avoids_lift avoids_gets
  avoids_modify avoids_bind avoids_try_except avoids_try_except_only
  avoids_for_each : avoids.
#[local] Hint Extern 1 (@avoids _ _ _ (tell _)) =>
  apply avoids_tell; reflexivity : avoids.
#[local] Hint Extern 1 (@avoids _ _ _ (extern _ _)) =>
  apply avoids_extern; reflexivity : avoids.

(** Unfolds the operations of the module down to the monad. *)
Ltac unfold_operations :=
  unfold signal_get, signal_describe, signal_put, signal_subscribe,
    signal_unsubscribe, signal_connected, qt_emit, qt_connect, qt_disconnect,
    super, logger_debug, logger_error, logger_exception, raise_to_operator,
    get_signal_type, set_signal_type, getitem, item0, type_map_getitem,
    getitem, coerce, call, new_value_signal_getitem, value_signal_getitem.

Ltac avoids_branches :=
  repeat match goal with
         | |- @avoids _ _ _ _ => solve [auto 20 with avoids]
         | |- ∀ _, _ => intros ?
         | |- @avoids _ _ _ (bind _ _) => apply avoids_bind
         | |- @avoids _ _ _ (try_except _ _) => apply avoids_try_except
         | |- @avoids _ _ _ (try_except_only _ _ _) => apply avoids_try_except_only
         | |- @avoids _ _ _ (for_each _ _) => apply avoids_for_each
         | |- @avoids _ _ _ (if ?b then _ else _) => destruct b
         | |- @avoids _ _ _ (match ?x with _ => _ end) => destruct x
         end.

Lemma puts_without l : without is_put l → puts l = [].
Proof.
  unfold without, puts. induction l as [|e l IH]; simpl; [reflexivity|].
  intros H. apply andb_prop in H as [He Hl].
  destruct e; simpl in *; try discriminate He; auto.
Qed.

Lemma avoids_put_send_new_value self v sev :
  avoids is_put (send_new_value self v sev).
Proof.
  unfold send_new_value, note_type, emit_value, emit_severity.
  unfold_operations. avoids_branches.
Qed.

Lemma avoids_put_send_metadata self kwargs :
  avoids is_put (send_metadata self kwargs).
Proof.
  unfold send_metadata, current_info, normalise_enum_strs.
  unfold_operations. avoids_branches.
  unfold send_key. unfold_operations. avoids_branches.
Qed.

Lemma avoids_put_add_listener self channel :
  avoids is_put (add_listener self channel).
Proof.
  unfold add_listener, announce, gather, report.
  unfold_operations. avoids_branches.
  - unfold report_field. unfold_operations. avoids_branches.
  - apply avoids_put_send_new_value.
  - unfold hook_put. unfold_operations. avoids_branches.
Qed.

Lemma avoids_put_remove_listener self channel destroying :
  avoids is_put (remove_listener self channel destroying).
Proof.
  unfold remove_listener. unfold_operations.
  avoids_branches; unfold unhook_put; unfold_operations; avoids_branches.
Qed.

Lemma avoids_put_close self : avoids is_put (close self).
Proof. unfold close. unfold_operations. avoids_branches. Qed.

(** The events of [put_value], by the outcome of the coercion and of the
    put. *)
Lemma put_value_events self new_val w :
  events (put_value self new_val w) =
  match coerced (signal_type w !! oid self) new_val with
  | Ok v =>
      [Log DEBUG "Putting value %r to %r"; SignalPut (name (signal self)) v] ++
      match (put (signal self) v (ext w)).1 with
      | Ok _ => []
      | Raise e =>
          [Log EXCEPTION "Unable to put %r to %s"; RaiseToOperator e]
      end
  | Raise e => [Log EXCEPTION "Unable to put %r to %s"; RaiseToOperator e]
  end.
Proof.
  unfold put_value, try_except, bind, get_signal_type, gets. simpl.
  rewrite coerce_coerced.
  destruct (coerced (signal_type w !! oid self) new_val) as [v|e]; simpl;
    [|reflexivity].
  unfold signal_put, extern.
  destruct (put (signal self) v (ext w)) as [[[]|e] x]; reflexivity.
Qed.

(** X2. The only call that writes to the signal is [put_value], and it
    writes at most once: the writes of a call are the coerced value for a
    [put_value] whose coercion returns, and none for the value and metadata
    callbacks, for attaching and detaching a listener and for closing. *)
Theorem only_put_value_writes self call w :
  puts (events (perform self call w)) = written self call w.
Proof.
  destruct call as [value severity|kwargs|new_val|channel|channel destroying|];
    simpl.
  - apply puts_without, avoids_put_send_new_value.
  - apply puts_without, avoids_put_send_metadata.
  - rewrite put_value_events.
    destruct (coerced (signal_type w !! oid self) new_val) as [v|e];
      [|reflexivity].
    destruct ((put (signal self) v (ext w)).1); reflexivity.
  - apply puts_without, avoids_put_add_listener.
  - apply puts_without, avoids_put_remove_listener.
  - apply puts_without, avoids_put_close.
Qed.

(** *** Value callbacks that fail, and what one that returns has sent *)

(** Noting the type either fails before anything is stored, with the one
    call to [describe()] made, or leaves a type noted. *)
Lemma note_type_outcome self w :
  let o := note_type self w in
  match res o with
  | Raise _ =>
      signal_type w !! oid self = None ∧
      events o = [SignalDescribe (name (signal self))] ∧
      signal_type (post o) = signal_type w
  | Ok _ =>
      (∃ c, signal_type (post o) !! oid self = Some c) ∧
      silent (events o)
  end.
Proof.
  unfold note_type, bind, get_signal_type, gets. simpl.
  destruct (signal_type w !! oid self) as [c|] eqn:Hty; simpl.
  { rewrite Hty. split; [eauto|reflexivity]. }
  unfold signal_describe, extern.
  destruct (describe (signal self) (ext w)) as [[d|e] x]; simpl; [|auto].
  unfold getitem.
  destruct (d !! name (signal self)) as [info|]; simpl; [|auto].
  destruct (info !! "dtype") as [dtype|]; simpl; [|auto].
  unfold type_map_getitem, getitem.
  destruct dtype as [| | | |k| | |]; simpl;
    try (match goal with
         | |- context [forallb hashable ?l] => destruct (forallb hashable l)
         end; simpl);
    auto.
  destruct (_type_map !! k) as [[|c rest]|]; simpl; auto.
  split; [|reflexivity]. exists c. apply lookup_insert_eq.
Qed.

(** X3. A value callback that raises has only asked the signal to describe
    itself: it has emitted nothing to the widgets, and the connection still
    has no type noted, so that the next value callback looks the type up
    again. *)
Theorem failed_value_callback_sends_nothing self value severity w e
    (Hraise : res (send_new_value self value severity w) = Raise e) :
  let o := send_new_value self value severity w in
  events o = [SignalDescribe (name (signal self))] ∧
  emissions (events o) = [] ∧
  signal_type w !! oid self = None ∧
  signal_type (post o) !! oid self = None.
Proof.
  simpl. rewrite send_new_value_res in Hraise.
  pose proof (note_type_outcome self w) as Hnote. simpl in Hnote.
  rewrite Hraise in Hnote. destruct Hnote as (Hnone & Hev & Hpost).
  assert (Hevents : events (send_new_value self value severity w) =
                    [SignalDescribe (name (signal self))]).
  { unfold send_new_value. rewrite events_bind, Hraise, Hev. reflexivity. }
  split; [exact Hevents|]. split; [rewrite Hevents; reflexivity|].
  split; [exact Hnone|].
  unfold send_new_value. rewrite post_bind, Hraise, Hpost. exact Hnone.
Qed.

(** X12. A signal that describes itself with a dtype that is not a key of
    the table makes the value callback raise [KeyError]. *)
Theorem unknown_dtype_raises_KeyError self value severity w d info k x
    (Hnone : signal_type w !! oid self = None)
    (Hdesc : describe (signal self) (ext w) = (Ok d, x))
    (Hname : d !! name (signal self) = Some info)
    (Hdtype : info !! "dtype" = Some (VStr k))
    (Hmap : _type_map !! k = None) :
  res (send_new_value self value severity w) = Raise KeyError.
Proof.
  rewrite send_new_value_res.
  unfold note_type, bind, get_signal_type, gets, signal_describe, extern,
    getitem, type_map_getitem, getitem.
  simpl. rewrite Hnone. simpl. rewrite Hdesc. simpl. rewrite Hname. simpl.
  rewrite Hdtype. simpl. rewrite Hmap. reflexivity.
Qed.

Lemma emissions_emit_value self v w :
  emissions (events (emit_value self v w)) =
  match signal_type w !! oid self with
  | Some c =>
      match coerced (Some c) v with
      | Ok v' => [(new_value_signal c, v')]
      | Raise _ => []
      end
  | None => []
  end.
Proof.
  destruct (emit_value_spec self v w) as (_ & _ & Hev).
  destruct (signal_type w !! oid self) as [c|]; [|rewrite Hev; reflexivity].
  destruct (coerced (Some c) v) as [v'|e]; [|rewrite Hev; reflexivity].
  destruct ((emit (new_value_signal c) v' (ext w)).1); rewrite Hev; reflexivity.
Qed.

Lemma emissions_emit_severity sev w :
  emissions (events (emit_severity (Ext:=Ext) sev w)) =
  if is_not_None sev then [(new_severity_signal, sev)] else [].
Proof.
  unfold emit_severity, try_except, qt_emit, extern, logger_exception, tell.
  destruct (is_not_None sev); [|reflexivity].
  destruct (emit new_severity_signal sev (ext w)) as [[[]|e] x]; reflexivity.
Qed.

Lemma send_new_value_sends self value severity w
    (Hreturns : res (send_new_value self value severity w) = Ok tt) :
  let o := send_new_value self value severity w in
  ∃ c,
    signal_type (post o) !! oid self = Some c ∧
    emissions (events o) =
      ((λ tv : PyType * PyVal, (new_value_signal tv.1, tv.2)) <$> delivered c value) ++
      (if is_not_None severity then [(new_severity_signal, severity)] else []).
Proof.
  simpl. rewrite send_new_value_res in Hreturns.
  pose proof (note_type_outcome self w) as Hnote. simpl in Hnote.
  rewrite Hreturns in Hnote. destruct Hnote as ((c & Hc) & Hsilent).
  set (w1 := post (note_type self w)) in *.
  destruct (emit_value_spec self value w1) as (Hres1 & Hty1 & _).
  destruct (emit_severity_spec severity (post (emit_value self value w1)))
    as (_ & Hty2 & _).
  exists c. split.
  - unfold send_new_value. rewrite post_bind, Hreturns. fold w1.
    rewrite post_bind, Hres1, Hty2, Hty1. exact Hc.
  - unfold send_new_value. rewrite events_bind, Hreturns. fold w1.
    rewrite events_bind, Hres1, !emissions_app.
    rewrite (emissions_silent _ Hsilent), emissions_emit_value,
      emissions_emit_severity, Hc.
    unfold delivered. destruct (coerced (Some c) value); reflexivity.
Qed.

(** X5. A value callback that returns has sent at most one value, coerced,
    on the overload of the type that is then noted, followed by the
    severity exactly when one was given; it sends nothing else. *)
Theorem value_callback_sends self value severity w
    (Hreturns : res (send_new_value self value severity w) = Ok tt) :
  let o := send_new_value self value severity w in
  ∃ c,
    signal_type (post o) !! oid self = Some c ∧
    emissions (events o) =
      ((λ tv : PyType * PyVal, (new_value_signal tv.1, tv.2)) <$> delivered c value) ++
      (if is_not_None severity then [(new_severity_signal, severity)] else []).
Proof. exact (send_new_value_sends self value severity w Hreturns). Qed.

(** *** Metadata callbacks: what they ask and what they send *)

Lemma quiet_current_info self kwargs : quiet (current_info self kwargs).
Proof.
  unfold current_info, signal_connected, signal_describe, getitem.
  quiet_branches.
Qed.

Lemma avoids_signal_call_send_keys info (l : list (string * QtSignal)) :
  avoids is_signal_call (for_each (Ext:=Ext) l (send_key info)).
Proof.
  apply avoids_for_each. intros entry.
  unfold send_key. unfold_operations. avoids_branches.
Qed.

(** X4. A metadata callback for a signal that does not report itself
    connected never calls the signal: it makes no [describe], [get], [put],
    [subscribe] or [unsubscribe], and works on the received fields
    alone. *)
Theorem disconnected_metadata_asks_nothing self kwargs w
    (Hdisconnected : connected (signal self) (ext w) = false) :
  let o := send_metadata self kwargs w in
  without is_signal_call (events o) ∧
  res (current_info self kwargs w) = Ok kwargs.
Proof.
  simpl.
  assert (Hinfo : current_info self kwargs w = MkOut (Ok kwargs) w []).
  { unfold current_info, bind, signal_connected, gets. simpl.
    rewrite Hdisconnected. reflexivity. }
  split; [|rewrite Hinfo; reflexivity].
  unfold send_metadata. rewrite events_bind, Hinfo. cbn [res post events].
  rewrite events_bind, normalise_enum_strs_normalised. cbn [res post events].
  destruct (normalised kwargs) as [info|e]; [|reflexivity].
  apply avoids_signal_call_send_keys.
Qed.

(** X15. A metadata callback that raises has emitted nothing: the snapshot
    and the tuple of enumeration strings are made before the first
    emission. *)
Theorem failed_metadata_callback_sends_nothing self kwargs w e
    (Hraise : res (send_metadata self kwargs w) = Raise e) :
  emissions (events (send_metadata self kwargs w)) = [].
Proof.
  rewrite send_metadata_res in Hraise.
  pose proof (quiet_current_info self kwargs w) as Hquiet.
  unfold send_metadata. rewrite events_bind, emissions_app.
  rewrite (emissions_silent _ Hquiet). simpl.
  destruct (res (current_info self kwargs w)) as [info|e']; [|reflexivity].
  rewrite events_bind, normalise_enum_strs_normalised. cbn [res post events].
  destruct (normalised info) as [info'|e']; [discriminate Hraise|reflexivity].
Qed.

(** *** Calls that send nothing to the widgets *)

Lemma quiet_put_value self v : quiet (put_value self v).
Proof. unfold put_value. unfold_operations. quiet_branches. Qed.

Lemma quiet_remove_listener self channel destroying :
  quiet (remove_listener self channel destroying).
Proof.
  unfold remove_listener. unfold_operations.
  quiet_branches; apply quiet_for_each; intros t;
    unfold unhook_put; unfold_operations; quiet_branches.
Qed.

Lemma quiet_close self : quiet (close self).
Proof. unfold close. unfold_operations. quiet_branches. Qed.

Lemma avoids_for_each_in P {A} (l : list A) (body : A → M Ext unit) :
  (∀ a, a ∈ l → avoids P (body a)) → avoids P (for_each l body).
Proof.
  induction l as [|a l IH]; simpl; intros Hb.
  - apply avoids_ret.
  - apply avoids_bind; [apply Hb; left|]. intros _.
    apply IH. intros a' Ha'. apply Hb. by right.
Qed.

Lemma avoids_other_emit_send_key info entry :
  entry ∈ _key_to_signal → avoids is_other_emit (send_key (Ext:=Ext) info entry).
Proof.
  intros Hentry.
  unfold _key_to_signal, describe_key_to_signal, metadata_key_to_signal in Hentry.
  simpl in Hentry.
  repeat (apply elem_of_cons in Hentry as [->|Hentry]);
    try (by apply elem_of_nil in Hentry);
    unfold send_key; unfold_operations; simpl; avoids_branches.
Qed.

Lemma avoids_other_emit_send_metadata self kwargs :
  avoids is_other_emit (send_metadata self kwargs).
Proof.
  unfold send_metadata.
  apply avoids_bind.
  { unfold current_info. unfold_operations. avoids_branches. }
  intros info. apply avoids_bind.
  { unfold normalise_enum_strs. avoids_branches. }
  intros info'. apply avoids_for_each_in. intros entry Hentry.
  by apply avoids_other_emit_send_key.
Qed.

(** X13. Writing a value, detaching a listener and closing send nothing to
    the widgets; a metadata callback emits only on the seven signals of the
    metadata table, never on a value or severity signal. *)
Theorem calls_that_send_no_value self w :
  (∀ new_val, emissions (events (put_value self new_val w)) = []) ∧
  (∀ channel destroying,
     emissions (events (remove_listener self channel destroying w)) = []) ∧
  emissions (events (close self w)) = [] ∧
  (∀ kwargs q v,
     (q, v) ∈ emissions (events (send_metadata self kwargs w)) →
     q ∈ _key_to_signal.*2 ∧
     q ≠ new_severity_signal ∧ ∀ t, q ≠ new_value_signal t).
Proof.
  split; [intros; apply emissions_silent, quiet_put_value|].
  split; [intros; apply emissions_silent, quiet_remove_listener|].
  split; [apply emissions_silent, quiet_close|].
  intros kwargs q v Hin.
  assert (Hq : q ∈ _key_to_signal.*2).
  { unfold emissions in Hin. apply list_elem_of_omap in Hin as (ev & Hev & Hsome).
    destruct ev; try discriminate Hsome. injection Hsome as -> ->.
    destruct (decide (q ∈ _key_to_signal.*2)) as [Hq|Hq]; [exact Hq|].
    exfalso.
    eapply (without_not_in is_other_emit); [|
      |exact Hev]; [apply avoids_other_emit_send_metadata|].
    simpl. by rewrite bool_decide_eq_false_2. }
  split; [exact Hq|].
  split; [intros ->|intros t ->]; vm_compute in Hq;
    repeat (apply elem_of_cons in Hq as [Hq|Hq]; [discriminate Hq|]);
    by apply elem_of_nil in Hq.
Qed.

(** *** What an attach sends and hooks *)

Lemma connects_app l1 l2 : connects (l1 ++ l2) = connects l1 ++ connects l2.
Proof. apply omap_app. Qed.

Lemma connects_without l : without is_connect l → connects l = [].
Proof.
  unfold without, connects. induction l as [|e l IH]; simpl; [reflexivity|].
  intros H. apply andb_prop in H as [He Hl].
  destruct e; simpl in *; try discriminate He; auto.
Qed.

Lemma connects_in l ch t : (ch, t) ∈ connects l ↔ Connect ch t ∈ l.
Proof.
  unfold connects. rewrite list_elem_of_omap. split.
  - intros (e & He & Hsome). destruct e; try discriminate Hsome.
    by injection Hsome as -> ->.
  - intros Hin. exists (Connect ch t). auto.
Qed.

(** The loop that hooks the edit-request signal never raises and changes
    nothing; it connects the overloads the channel has, in the order of the
    supported types. *)
Lemma hook_loop channel overloads (l : list PyType) w :
  let o := for_each (Ext:=Ext) l (hook_put channel overloads) w in
  res o = Ok tt ∧ post o = w ∧ silent (events o) ∧
  connects (events o) =
    (λ t, (channel_id channel, t)) <$> filter (λ t, t ∈ overloads) l.
Proof.
  induction l as [|t l IH]; simpl; [repeat split|].
  destruct IH as (Hres & Hpost & Hsilent & Hconn).
  assert (Hstep : hook_put (Ext:=Ext) channel overloads t w =
            MkOut (Ok tt) w
              (if decide (t ∈ overloads)
               then [Connect (channel_id channel) t]
               else [Log DEBUG "%s has no value_signal for type %s"])).
  { unfold hook_put, try_except_only, try_except, bind, value_signal_getitem,
      qt_connect, logger_debug, tell.
    destruct (decide (t ∈ overloads)); reflexivity. }
  rewrite res_bind, post_bind, events_bind, Hstep. cbn [res post events].
  split; [exact Hres|]. split; [exact Hpost|]. split.
  - apply silent_app; [|exact Hsilent]. destruct (decide (t ∈ overloads)); reflexivity.
  - rewrite connects_app, Hconn, filter_cons.
    destruct (decide (t ∈ overloads)); reflexivity.
Qed.

Lemma avoids_connect_send_new_value self v sev :
  avoids is_connect (send_new_value self v sev).
Proof.
  unfold send_new_value, note_type, emit_value, emit_severity.
  unfold_operations. avoids_branches.
Qed.

Lemma avoids_connect_report_fields desc (l : list (string * QtSignal)) :
  avoids is_connect (for_each (Ext:=Ext) l (report_field desc)).
Proof.
  apply avoids_for_each. intros entry.
  unfold report_field. unfold_operations. avoids_branches.
Qed.

Lemma avoids_connect_gather self : avoids is_connect (gather self).
Proof. unfold gather. unfold_operations. avoids_branches. Qed.

(** The parts of a [report] that returns. *)
Lemma report_returns self channel val desc w :
  res (report self channel val desc w) = Ok tt →
  ∃ w1 w2,
    res (for_each reported_fields (report_field desc) w1) = Ok tt ∧
    w2 = post (for_each reported_fields (report_field desc) w1) ∧
    res (send_new_value self val VNone w2) = Ok tt ∧
    events (report self channel val desc w) =
      [Emit write_access_signal (VBool true);
       Emit connection_state_signal (VBool true)] ++
      events (for_each reported_fields (report_field desc) w1) ++
      events (send_new_value self val VNone w2) ++
      events (match value_signal channel with
              | Some overloads =>
                  for_each supported_types (hook_put channel overloads)
              | None => ret tt
              end (post (send_new_value self val VNone w2))) ∧
    post (report self channel val desc w) =
      post (send_new_value self val VNone w2).
Proof.
  unfold report. intros Hres.
  apply bind_returns in Hres as ([] & Hwa & Hres).
  apply bind_returns in Hres as ([] & Hconn & Hres).
  apply bind_returns in Hres as ([] & Hfields & Hres).
  apply bind_returns in Hres as ([] & Hvalue & Hres).
  eexists _, _. split; [exact Hfields|]. split; [reflexivity|].
  split; [exact Hvalue|].
  rewrite !events_bind, !post_bind, Hwa, Hconn, Hfields, Hvalue.
  split.
  - unfold qt_emit, extern.
    destruct (emit write_access_signal _ _) as [r1 x1].
    destruct (emit connection_state_signal _ _) as [r2 x2]. reflexivity.
  - destruct (value_signal channel) as [overloads|]; [|reflexivity].
    apply hook_loop.
Qed.

Lemma emissions_hooks channel (w : World Ext) :
  emissions (events (match value_signal channel with
                     | Some overloads =>
                         for_each supported_types (hook_put channel overloads)
                     | None => ret tt
                     end w)) = [].
Proof.
  apply emissions_silent.
  destruct (value_signal channel) as [overloads|]; [|reflexivity].
  apply hook_loop.
Qed.

Lemma add_listener_sends self channel w val desc
    (Hannounce : res (announce channel w) = Ok tt)
    (Hgather : res (gather self (post (announce channel w))) = Ok (val, desc))
    (Hreturns : res (add_listener self channel w) = Ok tt) :
  let o := add_listener self channel w in
  ∃ c,
    signal_type (post o) !! oid self = Some c ∧
    emissions (events o) =
      [(new_severity_signal, VInt 0); (write_access_signal, VBool true);
       (connection_state_signal, VBool true)] ++
      to_report desc ++
      ((λ tv : PyType * PyVal, (new_value_signal tv.1, tv.2)) <$> delivered c val).
Proof.
  simpl.
  destruct (add_listener_fetched self channel w val desc Hannounce Hgather)
    as (Hres & Hev).
  rewrite Hreturns in Hres. symmetry in Hres.
  apply report_returns in Hres as (w1 & w2 & Hfields & -> & Hvalue & Hrep & Hpost).
  destruct (send_new_value_sends self val VNone _ Hvalue) as (c & Hc & Hsent).
  exists c. split.
  - unfold add_listener.
    rewrite post_bind, Hannounce, post_bind, res_try_except, post_try_except,
      !res_bind, !post_bind, Hgather. cbn [res post events ret].
    rewrite Hpost. exact Hc.
  - rewrite Hev, Hrep, !emissions_app, (announce_returns _ _ Hannounce).
    rewrite (emissions_silent _ (quiet_gather self _)).
    rewrite (report_fields_spec _ _ _ Hfields), Hsent, emissions_hooks.
    fold (to_report desc). simpl. rewrite !app_nil_r. reflexivity.
Qed.

(** X8. An attach that goes through has noted a type and has sent, in this
    order and nothing else: the no-alarm severity, write access, the
    connection, the described fields with a true value, and the fetched
    value coerced to the noted type. *)
Theorem successful_attach_sends self channel w val desc
    (Hannounce : res (announce channel w) = Ok tt)
    (Hgather : res (gather self (post (announce channel w))) = Ok (val, desc))
    (Hreturns : res (add_listener self channel w) = Ok tt) :
  let o := add_listener self channel w in
  ∃ c,
    signal_type (post o) !! oid self = Some c ∧
    emissions (events o) =
      [(new_severity_signal, VInt 0); (write_access_signal, VBool true);
       (connection_state_signal, VBool true)] ++
      to_report desc ++
      ((λ tv : PyType * PyVal, (new_value_signal tv.1, tv.2)) <$> delivered c val).
Proof.
  exact (add_listener_sends self channel w val desc Hannounce Hgather Hreturns).
Qed.

Lemma add_listener_connects self channel w val desc :
  res (announce channel w) = Ok tt →
  res (gather self (post (announce channel w))) = Ok (val, desc) →
  res (add_listener self channel w) = Ok tt →
  connects (events (add_listener self channel w)) =
    match value_signal channel with
    | Some overloads =>
        (λ t, (channel_id channel, t)) <$>
          filter (λ t, t ∈ overloads) supported_types
    | None => []
    end.
Proof.
  intros Hannounce Hgather Hreturns.
  destruct (add_listener_fetched self channel w val desc Hannounce Hgather)
    as (Hres & Hev).
  rewrite Hreturns in Hres. symmetry in Hres.
  apply report_returns in Hres as (w1 & w2 & Hfields & -> & Hvalue & Hrep & _).
  rewrite Hev, Hrep, !connects_app, (announce_returns _ _ Hannounce).
  rewrite (connects_without _ (avoids_connect_gather self _)).
  rewrite (connects_without _ (avoids_connect_report_fields desc _ _)).
  rewrite (connects_without _ (avoids_connect_send_new_value self _ _ _)).
  destruct (value_signal channel) as [overloads|]; [|reflexivity].
  match goal with
  | |- context [for_each supported_types (hook_put channel overloads) ?w'] =>
      destruct (hook_loop channel overloads supported_types w')
        as (_ & _ & _ & Hhook)
  end.
  cbv zeta in Hhook. rewrite Hhook. reflexivity.
Qed.

(** X6. An attach that goes through connects [put_value] to the overloads
    of the channel's edit-request signal, one connection for each supported
    type the channel has, in the order of the supported types, and to none
    when the channel has no edit-request signal.  An attach that is given
    up because the fetch raised connects nothing. *)
Theorem attach_hooks self channel w
    (Hannounce : res (announce channel w) = Ok tt) :
  let o := add_listener self channel w in
  match res (gather self (post (announce channel w))) with
  | Raise _ => connects (events o) = []
  | Ok _ =>
      res o = Ok tt →
      connects (events o) =
        match value_signal channel with
        | Some overloads =>
            (λ t, (channel_id channel, t)) <$>
              filter (λ t, t ∈ overloads) supported_types
        | None => []
        end
  end.
Proof.
  simpl.
  destruct (res (gather self (post (announce channel w)))) as [[val desc]|e]
    eqn:Hgather.
  - intros Hreturns.
    exact (add_listener_connects self channel w val desc Hannounce Hgather
             Hreturns).
  - destruct (add_listener_aborted self channel w e Hannounce Hgather)
      as (_ & Hev).
    rewrite Hev, !connects_app, (announce_returns _ _ Hannounce).
    rewrite (connects_without _ (avoids_connect_gather self _)).
    reflexivity.
Qed.

(** *** Attach and detach, attach and edit *)

Lemma events_tell_bind {B} e (k : unit → M Ext B) w :
  events (bind (tell e) k w) = e :: events (k tt w).
Proof. unfold bind, tell. destruct (k tt w). reflexivity. Qed.

Lemma remove_listener_disconnect_iff self channel destroying w t :
  Disconnect (channel_id channel) t ∈
    events (remove_listener self channel destroying w) ↔
  destroying = false ∧
  ∃ overloads, value_signal channel = Some overloads ∧ t ∈ overloads.
Proof.
  unfold remove_listener. unfold logger_debug at 1.
  rewrite events_tell_bind, elem_of_cons, events_bind, elem_of_app.
  set (unhook := match value_signal channel with
                 | Some overloads =>
                     if negb destroying
                     then for_each supported_types (unhook_put self channel overloads)
                     else ret tt
                 | None => ret tt
                 end).
  assert (Htail : Disconnect (channel_id channel) t ∉
            match res (unhook w) with
            | Ok a =>
                events
                  (bind (super (Base_remove_listener (channel_id channel) destroying))
                     (λ _, logger_debug "Successfully removed %r")
                     (post (unhook w)))
            | Raise _ => []
            end).
  { destruct (res (unhook w)); [|apply not_elem_of_nil].
    unfold bind, super, extern, logger_debug, tell.
    destruct (pydm _ _) as [[[]|e] x]; simpl; set_solver. }
  assert (Hunhook : Disconnect (channel_id channel) t ∈ events (unhook w) ↔
            destroying = false ∧
            ∃ overloads, value_signal channel = Some overloads ∧ t ∈ overloads).
  { unfold unhook.
    destruct (value_signal channel) as [overloads|]; [destruct destroying|];
      simpl.
    - split; [intros H; by apply elem_of_nil in H|intros [H _]; discriminate H].
    - destruct (unhook_loop self channel overloads supported_types w)
        as (_ & Hiff & _).
      rewrite Hiff. split.
      + intros [_ Ht]. eauto.
      + intros [_ (ov & [= <-] & Ht)]. split; [|exact Ht].
        unfold supported_types. destruct t; set_solver.
    - split; [intros H; by apply elem_of_nil in H|].
      intros [_ (ov & Hov & _)]. discriminate Hov. }
  rewrite <- Hunhook. split.
  - intros [Heq|[Hin|Hin]]; [discriminate Heq|exact Hin|contradiction].
  - auto.
Qed.

(** X7. The overloads that an attach that goes through connects to
    [put_value] are the overloads from which a later detach, when it is not
    part of a teardown, disconnects it. *)
Theorem attach_detach_round_trip self channel w w' val desc
    (Hannounce : res (announce channel w) = Ok tt)
    (Hgather : res (gather self (post (announce channel w))) = Ok (val, desc))
    (Hreturns : res (add_listener self channel w) = Ok tt) :
  ∀ t, Connect (channel_id channel) t ∈ events (add_listener self channel w) ↔
       Disconnect (channel_id channel) t ∈
         events (remove_listener self channel false w').
Proof.
  intros t. rewrite remove_listener_disconnect_iff, <- connects_in.
  rewrite (add_listener_connects self channel w val desc Hannounce Hgather
             Hreturns).
  destruct (value_signal channel) as [overloads|].
  - rewrite list_elem_of_fmap. split.
    + intros (t' & [= <-] & Hin).
      apply list_elem_of_filter in Hin as [Hin _]. eauto.
    + intros (_ & ov & [= <-] & Hin). exists t. split; [reflexivity|].
      apply list_elem_of_filter. split; [exact Hin|].
      unfold supported_types. destruct t; set_solver.
  - split; [intros H; by apply elem_of_nil in H|].
    intros (_ & ov & Hov & _). discriminate Hov.
Qed.


(** *** Construction and closing *)

Lemma extern_returns {A} e (f : Ext → Res A * Ext) w a :
  res (extern e f w) = Ok a →
  f (ext w) = (Ok a, ext (post (extern e f w))).
Proof.
  unfold extern. destruct (f (ext w)) as [r x]. simpl. by intros ->.
Qed.

Lemma post_getitem {V} (d : gmap string V) k w : post (getitem d k w) = w.
Proof. unfold getitem. destruct (d !! k); reflexivity. Qed.

(** X9. The two handles that [close] releases are the ones that the
    constructor got from [subscribe], for value updates and for metadata
    updates; [close] releases the value handle first, and does not release
    the metadata handle when releasing the value handle raises. *)
Theorem close_releases_the_handles obj channel a w c
    (Hinit : res (__init__ obj channel a w) = Ok c) :
  (∃ x1 x2 x3,
     pydm (Base_init a) (ext w) = (Ok tt, x1) ∧
     subscribe (signal c) SUB_VALUE x1 = (Ok (_cid c), x2) ∧
     subscribe (signal c) SUB_META x2 = (Ok (_mid c), x3)) ∧
  ∀ w',
    events (close c w') =
      SignalUnsubscribe (name (signal c)) (_cid c) ::
      match (unsubscribe (signal c) (_cid c) (ext w')).1 with
      | Ok _ => [SignalUnsubscribe (name (signal c)) (_mid c)]
      | Raise _ => []
      end.
Proof.
  split.
  - unfold __init__ in Hinit.
    apply bind_returns in Hinit as ([] & Hsuper & Hinit).
    apply extern_returns in Hsuper.
    apply bind_returns in Hinit as ([] & _ & Hinit).
    apply bind_returns in Hinit as (reg & _ & Hinit).
    apply bind_returns in Hinit as (s & _ & Hinit).
    apply bind_returns in Hinit as (cid & Hcid & Hinit).
    apply bind_returns in Hinit as (mid & Hmid & Hinit).
    apply bind_returns in Hinit as ([] & _ & Hinit).
    injection Hinit as <-.
    apply extern_returns in Hcid. apply extern_returns in Hmid.
    unfold super, signal_subscribe in *. rewrite !post_getitem in *.
    eexists _, _, _. split; [exact Hsuper|]. split; [exact Hcid|exact Hmid].
  - intros w'. unfold close, bind, signal_unsubscribe, extern.
    destruct (unsubscribe (signal c) (_cid c) (ext w')) as [[[]|e] x]; simpl;
      [|reflexivity].
    destruct (unsubscribe (signal c) (_mid c) x) as [r x']. reflexivity.
Qed.

(** X10. Constructing a connection for an address that is not in the
    registry stops at the lookup: after the constructor of the base class
    nothing is called, so no subscription is made on any signal and nothing
    is sent to the widgets. *)
Theorem failed_lookup_leaves_no_trace obj channel a w
    (Habsent : signal_registry w !! a = None) :
  events (__init__ obj channel a w) = [Super (Base_init a)].
Proof.
  unfold __init__, bind, super, extern, set_signal_type, modify, gets, getitem.
  destruct (pydm (Base_init a) (ext w)) as [[[]|e] x]; simpl; [|reflexivity].
  rewrite Habsent. reflexivity.
Qed.

(** *** What the calls of one connection leave alone *)

Lemma touches_only_ext self w0 : ext_stable (touches_only self w0).
Proof. intros x w H. exact H. Qed.

Lemma keeps_touches_only_note_type self w0 :
  keeps (touches_only self w0) (note_type self).
Proof.
  pose proof (touches_only_ext self w0) as HI.
  unfold note_type. unfold_operations.
  keeps_branches; apply keeps_modify;
    intros w (Hreg & Hconns & Hnext & Hother);
    (split; [exact Hreg|]); (split; [exact Hconns|]); (split; [exact Hnext|]);
    intros other Hne; simpl; rewrite lookup_insert_ne by congruence;
    by apply Hother.
Qed.

(** X11. Whatever calls reach a connection (value and metadata callbacks,
    edits, attaches, detaches, closing), they leave the registry and the
    plugin's connections as they were and never change the type noted by
    another connection. *)
Theorem calls_touch_only_their_connection self calls w :
  let w' := life self calls w in
  signal_registry w' = signal_registry w ∧
  connections w' = connections w ∧
  ∀ other, other ≠ oid self → signal_type w' !! other = signal_type w !! other.
Proof.
  simpl.
  assert (H : touches_only self w (life self calls w)).
  { apply keeps_life;
      [apply touches_only_ext|apply keeps_touches_only_note_type|].
    repeat split. }
  destruct H as (Hreg & Hconns & _ & Hother). auto.
Qed.

(** *** Registering several signals *)

Lemma register_signal_lookup s w n :
  res (register_signal s w) = Ok tt ∧
  signal_registry (post (register_signal s w)) !! n =
    match signal_registry w !! n with
    | Some s0 => Some s0
    | None => if String.eqb (name s) n then Some s else None
    end.
Proof.
  unfold register_signal, bind, gets, modify, logger_debug, tell. simpl.
  destruct (decide (is_Some (signal_registry w !! name s))) as [Hin|Hout];
    simpl; (split; [reflexivity|]).
  - destruct (signal_registry w !! n) as [s0|] eqn:Hn; [reflexivity|].
    destruct (String.eqb_spec (name s) n) as [Heq|Hne]; [|reflexivity].
    rewrite Heq, Hn in Hin. destruct Hin as [? Hin]. discriminate Hin.
  - destruct (String.eqb_spec (name s) n) as [Heq|Hne].
    + rewrite Heq in *. rewrite lookup_insert_eq.
      destruct (signal_registry w !! n) as [s0|] eqn:Hn; [|reflexivity].
      exfalso. apply Hout. eauto.
    + rewrite lookup_insert_ne by exact Hne.
      destruct (signal_registry w !! n); reflexivity.
Qed.

(** X1. Registering a list of signals one after the other never raises, and
    afterwards every name resolves to the signal that had it before, or
    else to the first signal of the list with that name: a registered
    signal is never replaced or removed. *)
Theorem register_all_first_wins (ss : list (Signal Ext)) w n :
  let o := for_each ss register_signal w in
  res o = Ok tt ∧
  signal_registry (post o) !! n =
    match signal_registry w !! n with
    | Some s0 => Some s0
    | None => first_named n ss
    end.
Proof.
  revert w. induction ss as [|s ss IH]; intros w; simpl.
  - split; [reflexivity|]. destruct (signal_registry w !! n); reflexivity.
  - destruct (register_signal_lookup s w n) as (Hres & Hlookup).
    destruct (IH (post (register_signal s w))) as (Hres' & Hlookup').
    rewrite res_bind, post_bind, Hres. split; [exact Hres'|].
    rewrite Hlookup', Hlookup.
    destruct (signal_registry w !! n) as [s0|]; [reflexivity|].
    destruct (String.eqb (name s) n); reflexivity.
Qed.

(** *** The order of an attach *)

Lemma emissions_in l q v : (q, v) ∈ emissions l ↔ Emit q v ∈ l.
Proof.
  unfold emissions. rewrite list_elem_of_omap. split.
  - intros (e & He & Hsome). destruct e; try discriminate Hsome.
    by injection Hsome as -> ->.
  - intros Hin. exists (Emit q v). auto.
Qed.

(** C2. An attach emits in the order the listener expects: the no-alarm
    severity first, then write access, the connection, the metadata fields,
    the value; so every value emission comes after the three reports.
    When the default setup and the baseline went through: if fetching the
    value and the metadata raises, the attach logs, returns normally and
    has emitted nothing on the connection signal; if it succeeds, write
    access is reported right after the fetch, and an attach that then goes
    through has emitted, in this order and nothing else, the severity 0,
    write access, the connection, the described fields and the fetched
    value coerced to the noted type.  After such an attach, whatever calls
    reach the connection later, every value the listener is sent comes
    after the report of the connection. *)
Theorem add_listener_order self channel w :
  let o := add_listener self channel w in
  let w1 := post (announce channel w) in
  let n := name (signal self) in
  let opening :=
    [Log DEBUG "Adding %r ..."; Super (Base_add_listener (channel_id channel));
     Emit new_severity_signal (VInt 0)] in
  is_Some (attach_run Fresh (events o)) ∧
  (∀ pre t v post,
     events o = pre ++ Emit (new_value_signal t) v :: post →
     ∃ a b c d,
       pre = a ++ Emit new_severity_signal (VInt 0) ::
             b ++ Emit write_access_signal (VBool true) ::
             c ++ Emit connection_state_signal (VBool true) :: d) ∧
  (res (announce channel w) = Ok tt →
     (∀ e, res (gather self w1) = Raise e →
        res o = Ok tt ∧
        events o = opening ++ events (gather self w1) ++ [gather_log] ∧
        (∀ v, Emit connection_state_signal v ∉ events o)) ∧
     (∀ val desc, res (gather self w1) = Ok (val, desc) →
        res o = res (report self channel val desc (post (gather self w1))) ∧
        (∃ rest,
           events o =
             opening ++
             [SignalGet n; SignalDescribe n;
              Emit write_access_signal (VBool true)] ++ rest) ∧
        (res o = Ok tt →
           (∃ c,
              signal_type (post o) !! oid self = Some c ∧
              emissions (events o) =
                [(new_severity_signal, VInt 0);
                 (write_access_signal, VBool true);
                 (connection_state_signal, VBool true)] ++
                to_report desc ++
                ((λ tv : PyType * PyVal, (new_value_signal tv.1, tv.2)) <$>
                   delivered c val)) ∧
           (∀ calls before t v after,
              events o ++ history self calls (post o) =
                before ++ Emit (new_value_signal t) v :: after →
              Emit connection_state_signal (VBool true) ∈ before)))).
Proof.
  simpl.
  assert (Hrun : is_Some (attach_run Fresh (events (add_listener self channel w)))).
  { destruct (steps_add_listener self channel w) as (p & Hp & _). eauto. }
  assert (Hbefore : ∀ pre t v suf,
            events (add_listener self channel w) =
              pre ++ Emit (new_value_signal t) v :: suf →
            ∃ a b c d,
              pre = a ++ Emit new_severity_signal (VInt 0) ::
                    b ++ Emit write_access_signal (VBool true) ::
                    c ++ Emit connection_state_signal (VBool true) :: d).
  { intros pre t v suf Hsplit.
    eapply attach_run_value_after_connected; eauto. }
  split; [exact Hrun|]. split; [exact Hbefore|].
  intros Hann. pose proof (announce_returns channel w Hann) as Hopen.
  split.
  - intros e Hg.
    destruct (add_listener_aborted self channel w e Hann Hg) as (Hres & Hev).
    rewrite Hopen in Hev.
    split; [exact Hres|]. split; [exact Hev|].
    intros v Hin. rewrite Hev in Hin.
    apply elem_of_app in Hin as [Hin|Hin]; [set_solver|].
    apply elem_of_app in Hin as [Hin|Hin]; [|unfold gather_log in Hin; set_solver].
    eapply silent_no_emit; [apply quiet_gather|exact Hin].
  - intros val desc Hg.
    destruct (add_listener_fetched self channel w val desc Hann Hg) as (Hres & Hev).
    destruct (report_opens self channel val desc
                (post (gather self (post (announce channel w)))))
      as (rest & Hrest).
    split; [exact Hres|]. split.
    { exists rest.
      rewrite Hev, Hopen, (gather_returns _ _ _ _ Hg), Hrest. reflexivity. }
    intros Hreturns.
    destruct (add_listener_sends self channel w val desc Hann Hg Hreturns)
      as (c & Hc & Hsent).
    split; [exists c; split; [exact Hc|exact Hsent]|].
    assert (Hconn : Emit connection_state_signal (VBool true)
                      ∈ events (add_listener self channel w)).
    { apply emissions_in. rewrite Hsent. set_solver. }
    intros calls before t v after Hsplit.
    apply app_eq_app in Hsplit as (l & [(Hpre & Hsuf)|(Hpre & Hsuf)]).
    + destruct l as [|x l]; simpl in Hsuf.
      * rewrite app_nil_r in Hpre. rewrite <- Hpre. exact Hconn.
      * injection Hsuf as <- Hsuf.
        destruct (Hbefore _ _ _ _ Hpre) as (a & b & c' & d & ->).
        set_solver.
    + rewrite Hpre. apply elem_of_app. left. exact Hconn.
Qed.

(** *** Which failures are contained, and which are not *)

Lemma emit_severity_events severity w :
  events (emit_severity (Ext:=Ext) severity w) =
  if is_not_None severity then
    Emit new_severity_signal severity ::
    match (emit new_severity_signal severity (ext w)).1 with
    | Ok _ => []
    | Raise _ => [Log EXCEPTION "Unable to update %r severity with value %r."]
    end
  else [].
Proof.
  unfold emit_severity, try_except, qt_emit, extern, logger_exception, tell.
  destruct (is_not_None severity); [|reflexivity].
  destruct (emit new_severity_signal severity (ext w)) as [[[]|e] x]; reflexivity.
Qed.

Lemma send_key_events info entry w :
  events (send_key (Ext:=Ext) info entry w) =
  match info !! entry.1 with
  | Some value =>
      if is_not_None value then
        Emit entry.2 value ::
        match (emit entry.2 value (ext w)).1 with
        | Ok _ => []
        | Raise _ => [Log DEBUG "Failed to emit %s %s=%s"]
        end
      else []
  | None => []
  end.
Proof.
  unfold send_key, try_except, qt_emit, extern, logger_debug, tell.
  destruct (info !! entry.1) as [value|]; [|reflexivity].
  destruct (is_not_None value); [|reflexivity].
  destruct (emit entry.2 value (ext w)) as [[[]|e] x]; reflexivity.
Qed.

(** The log call of [announce] cannot raise: the base-class setup and the
    emission of the baseline decide. *)
Lemma announce_res channel w :
  res (announce (Ext:=Ext) channel w) =
  res (bind (super (Base_add_listener (channel_id channel)))
         (λ _, qt_emit new_severity_signal (VInt 0)) w).
Proof. unfold announce. rewrite (res_bind (logger_debug _)). reflexivity. Qed.

(** One round of the metadata loop of an attach raises when the truth test
    of the described value or the emission does. *)
Lemma report_field_res desc entry w :
  res (report_field (Ext:=Ext) desc entry w) =
  let val := default VNone (desc !! entry.1) in
  match truth val with
  | Raise e => Raise e
  | Ok false => Ok tt
  | Ok true =>
      (emit entry.2 (match val with VList l => VTuple l | _ => val end)
         (ext w)).1
  end.
Proof.
  unfold report_field, bind, lift, qt_emit, extern. simpl.
  destruct (truth (default VNone (desc !! entry.1))) as [[]|e]; simpl;
    [|reflexivity..].
  destruct (default VNone (desc !! entry.1)) as [| | | | |l| |]; simpl;
    match goal with
    | |- context [emit ?q ?v ?x] => destruct (emit q v x) as [[[]|?] ?]
    end; reflexivity.
Qed.

(** After the fetch, an attach raises when one of the two reports, a round
    of the metadata loop or noting the type raises: the failures of the
    coercion and of the value emission are contained by the value
    callback, and hooking the edit-request signal cannot raise. *)
Lemma report_res self channel val desc w :
  res (report self channel val desc w) =
  res (bind (qt_emit write_access_signal (VBool true)) (λ _,
       bind (qt_emit connection_state_signal (VBool true)) (λ _,
       bind (for_each reported_fields (report_field desc)) (λ _,
       note_type self))) w).
Proof.
  unfold report.
  rewrite (res_bind (qt_emit write_access_signal _)).
  rewrite (res_bind (qt_emit write_access_signal _)).
  destruct (res (qt_emit write_access_signal (VBool true) w)) as [[]|e];
    [|reflexivity].
  set (w1 := post (qt_emit write_access_signal (VBool true) w)).
  rewrite (res_bind (qt_emit connection_state_signal _)).
  rewrite (res_bind (qt_emit connection_state_signal _)).
  destruct (res (qt_emit connection_state_signal (VBool true) w1)) as [[]|e];
    [|reflexivity].
  set (w2 := post (qt_emit connection_state_signal (VBool true) w1)).
  rewrite (res_bind (for_each _ _)).
  rewrite (res_bind (for_each _ _)).
  destruct (res (for_each reported_fields (report_field desc) w2)) as [[]|e];
    [|reflexivity].
  set (w3 := post (for_each reported_fields (report_field desc) w2)).
  rewrite res_bind, send_new_value_res.
  destruct (res (note_type self w3)) as [[]|e]; [|reflexivity].
  destruct (value_signal channel) as [overloads|]; [|reflexivity].
  apply hook_loop.
Qed.

Lemma add_listener_res self channel w :
  res (add_listener self channel w) =
  match res (announce channel w) with
  | Raise e => Raise e
  | Ok _ =>
      match res (gather self (post (announce channel w))) with
      | Raise _ => Ok tt
      | Ok (val, desc) =>
          res (report self channel val desc
                 (post (gather self (post (announce channel w)))))
      end
  end.
Proof.
  destruct (res (announce channel w)) as [[]|e] eqn:Hann.
  - destruct (res (gather self (post (announce channel w))))
      as [[val desc]|e] eqn:Hg.
    + exact (proj1 (add_listener_fetched self channel w val desc Hann Hg)).
    + exact (proj1 (add_listener_aborted self channel w e Hann Hg)).
  - unfold add_listener. rewrite res_bind, Hann. reflexivity.
Qed.

(** C5, as the code has it.  No exception leaves [put_value]: a failure of
    the coercion or of the put is logged and handed to the operator.  A
    value callback raises exactly when noting the type raises; failures of
    the coercion and of the value and severity emissions are logged, and the
    severity is emitted whatever happened to the value.  A metadata callback
    raises exactly when fetching the snapshot or turning the enumeration
    strings into a tuple raises; a failing emission of one field is logged
    and every other field is still emitted.  An attach logs and returns
    normally when fetching the value or the metadata raises; it raises
    exactly when the default setup, the emission of the baseline, of write
    access, of the connection or of a metadata field, the truth test of a
    described value, or noting the type in the value callback it ends with
    raises. *)
Theorem failures_contained self w :
  (∀ new_val,
     let o := put_value self new_val w in
     res o = Ok tt ∧
     events o =
       match coerced (signal_type w !! oid self) new_val with
       | Ok v =>
           [Log DEBUG "Putting value %r to %r";
            SignalPut (name (signal self)) v] ++
           match (put (signal self) v (ext w)).1 with
           | Ok _ => []
           | Raise e =>
               [Log EXCEPTION "Unable to put %r to %s"; RaiseToOperator e]
           end
       | Raise e => [Log EXCEPTION "Unable to put %r to %s"; RaiseToOperator e]
       end) ∧
  (∀ value severity,
     let o := send_new_value self value severity w in
     res o = res (note_type self w) ∧
     (res (note_type self w) = Ok tt → severity ≠ VNone →
      Emit new_severity_signal severity ∈ events o)) ∧
  (∀ value,
     let o := emit_value self value w in
     let t := signal_type w !! oid self in
     res o = Ok tt ∧
     events o =
       match t, coerced t value with
       | Some c, Ok v =>
           Emit (new_value_signal c) v ::
           match (emit (new_value_signal c) v (ext w)).1 with
           | Ok _ => []
           | Raise _ => [Log EXCEPTION "Unable to update %r with value %r."]
           end
       | _, _ => [Log EXCEPTION "Unable to update %r with value %r."]
       end) ∧
  (∀ severity,
     let o := emit_severity severity w in
     res o = Ok tt ∧
     events o =
       if is_not_None severity then
         Emit new_severity_signal severity ::
         match (emit new_severity_signal severity (ext w)).1 with
         | Ok _ => []
         | Raise _ =>
             [Log EXCEPTION "Unable to update %r severity with value %r."]
         end
       else []) ∧
  (∀ kwargs,
     res (send_metadata self kwargs w) =
     match res (current_info self kwargs w) with
     | Ok info =>
         match normalised info with
         | Ok _ => Ok tt
         | Raise e => Raise e
         end
     | Raise e => Raise e
     end) ∧
  (∀ info,
     let o := for_each _key_to_signal (send_key info) w in
     res o = Ok tt ∧ emissions (events o) = to_broadcast info) ∧
  (∀ info entry,
     let o := send_key info entry w in
     res o = Ok tt ∧
     events o =
       match info !! entry.1 with
       | Some value =>
           if is_not_None value then
             Emit entry.2 value ::
             match (emit entry.2 value (ext w)).1 with
             | Ok _ => []
             | Raise _ => [Log DEBUG "Failed to emit %s %s=%s"]
             end
           else []
       | None => []
       end) ∧
  (∀ channel e,
     res (announce channel w) = Ok tt →
     res (gather self (post (announce channel w))) = Raise e →
     res (add_listener self channel w) = Ok tt ∧
     events (add_listener self channel w) =
       events (announce channel w) ++
       events (gather self (post (announce channel w))) ++ [gather_log]) ∧
  (∀ channel,
     res (add_listener self channel w) =
     match res (announce channel w) with
     | Raise e => Raise e
     | Ok _ =>
         match res (gather self (post (announce channel w))) with
         | Raise _ => Ok tt
         | Ok (val, desc) =>
             res (report self channel val desc
                    (post (gather self (post (announce channel w)))))
         end
     end) ∧
  (∀ channel,
     res (announce channel w) =
     res (bind (super (Base_add_listener (channel_id channel)))
            (λ _, qt_emit new_severity_signal (VInt 0)) w)) ∧
  (∀ channel val desc,
     res (report self channel val desc w) =
     res (bind (qt_emit write_access_signal (VBool true)) (λ _,
          bind (qt_emit connection_state_signal (VBool true)) (λ _,
          bind (for_each reported_fields (report_field desc)) (λ _,
          note_type self))) w)) ∧
  (∀ desc entry,
     res (report_field desc entry w) =
     let val := default VNone (desc !! entry.1) in
     match truth val with
     | Raise e => Raise e
     | Ok false => Ok tt
     | Ok true =>
         (emit entry.2 (match val with VList l => VTuple l | _ => val end)
            (ext w)).1
     end).
Proof.
  split; [intros new_val; split;
          [apply put_value_returns|apply put_value_events]|].
  split; [intros value severity; split;
          [apply send_new_value_res|apply send_new_value_severity]|].
  split.
  { intros value. simpl.
    destruct (emit_value_spec self value w) as (Hres & _ & Hev).
    split; [exact Hres|].
    destruct (signal_type w !! oid self) as [c|]; [|exact Hev].
    destruct (coerced (Some c) value) as [v|e]; [|exact Hev].
    destruct ((emit (new_value_signal c) v (ext w)).1); exact Hev. }
  split; [intros severity; split;
          [apply emit_severity_spec|apply emit_severity_events]|].
  split; [intros kwargs; apply send_metadata_res|].
  split; [intros info; apply send_keys_spec|].
  split; [intros info entry; split;
          [apply send_key_spec|apply send_key_events]|].
  split; [intros channel e Hann Hg;
          exact (add_listener_aborted self channel w e Hann Hg)|].
  split; [intros channel; apply add_listener_res|].
  split; [intros channel; apply announce_res|].
  split; [intros channel val desc; apply report_res|].
  intros desc entry. apply report_field_res.
Qed.

End Properties.

(** ** Examples *)

(** The float signal "A": the first value, 1, notes [float] and goes out as
    1.0; so does every later value. *)
Lemma signal_type_latch_on_number_signal :
  let self := connection_to number_signal in
  let o := send_new_value (E := widgets []) self (VInt 1) VNone empty_world in
  signal_type empty_world !! oid self = None ∧
  res o = Ok tt ∧
  signal_type (post o) !! oid self = Some float ∧
  value_emissions (events o) = [(float, VFloat 1 0)] ∧
  ∀ calls,
    let w' := life (E := widgets []) self calls (post o) in
    signal_type w' !! oid self = Some float ∧
    value_emissions
      (events (send_new_value (E := widgets []) self (VInt 2) VNone w')) =
    [(float, VFloat 2 0)].
Proof.
  pose proof (signal_type_latch (E := widgets []) (connection_to number_signal)
                float empty_world (VInt 1) VNone {[ "A" := number_desc ]}
                number_desc "number" [] tt
                eq_refl eq_refl eq_refl eq_refl eq_refl)
    as (_ & Hres & Hty & Hval & Hlife).
  simpl. split; [reflexivity|]. split; [exact Hres|]. split; [exact Hty|].
  split; [exact Hval|]. intros calls.
  destruct (Hlife calls) as (Hty' & Hnext).
  split; [exact Hty'|]. apply (Hnext (VInt 2) VNone).
Defined.

(** An attach to the unreachable signal is given up after the baseline.  An
    attach to "A" reports write access right after the fetch and sends the
    severity, write access, the connection, the unit and the value 1.0;
    whatever calls follow, no value goes out before the connection was
    reported. *)
Lemma add_listener_order_on_samples :
  let dead := add_listener (E := widgets []) (connection_to dead_signal)
                (read_write_channel "ded") empty_world in
  let live := add_listener (E := widgets []) (connection_to number_signal)
                (read_write_channel "A") empty_world in
  (res dead = Ok tt ∧
   events dead =
     [Log DEBUG "Adding %r ..."; Super (Base_add_listener 7);
      Emit new_severity_signal (VInt 0); SignalGet "ded"; gather_log] ∧
   ∀ v, Emit connection_state_signal v ∉ events dead) ∧
  (is_Some (attach_run Fresh (events live)) ∧
   (∃ rest,
      events live =
        [Log DEBUG "Adding %r ..."; Super (Base_add_listener 7);
         Emit new_severity_signal (VInt 0); SignalGet "A"; SignalDescribe "A";
         Emit write_access_signal (VBool true)] ++ rest) ∧
   emissions (events live) =
     [(new_severity_signal, VInt 0); (write_access_signal, VBool true);
      (connection_state_signal, VBool true); (unit_signal, VStr "mm");
      (new_value_signal float, VFloat 1 0)] ∧
   ∀ calls before t v after,
     events live ++
       history (E := widgets []) (connection_to number_signal) calls
         (post live) =
       before ++ Emit (new_value_signal t) v :: after →
     Emit connection_state_signal (VBool true) ∈ before).
Proof.
  simpl. split.
  - destruct (add_listener_order (E := widgets []) (connection_to dead_signal)
                (read_write_channel "ded") empty_world) as (_ & _ & H).
    destruct (H eq_refl) as (Habort & _).
    exact (Habort (OtherError "DisconnectedError") eq_refl).
  - destruct (add_listener_order (E := widgets []) (connection_to number_signal)
                (read_write_channel "A") empty_world) as (Hrun & _ & H).
    split; [exact Hrun|].
    destruct (H eq_refl) as (_ & Hgo).
    destruct (Hgo (VInt 1) number_desc eq_refl) as (_ & Hrest & Hthrough).
    split; [exact Hrest|].
    destruct (Hthrough eq_refl) as ((c & Hc & Hsent) & Hlater).
    split; [|exact Hlater].
    vm_compute in Hc. injection Hc as <-. exact Hsent.
Defined.

(** Registering a second signal named "A" leaves the first one in place. *)
Lemma register_signal_twice :
  let second := fixed_signal "A" true (Ok (VInt 2)) (Ok ∅) (Ok tt) in
  let w1 := post (register_signal number_signal empty_world) in
  let o := register_signal second w1 in
  signal_registry w1 !! "A" = Some number_signal ∧
  res o = Ok tt ∧
  post o = w1 ∧
  signal_registry (post o) !! "A" = Some number_signal.
Proof.
  simpl.
  destruct (register_signal_keeps_first number_signal empty_world)
    as (_ & Hnew & _).
  destruct (Hnew eq_refl) as (_ & Hfirst & _).
  split; [exact Hfirst|].
  destruct (register_signal_keeps_first
              (fixed_signal "A" true (Ok (VInt 2)) (Ok ∅) (Ok tt))
              (post (register_signal number_signal empty_world)))
    as (Hres & _ & Hold).
  split; [exact Hres|].
  destruct (Hold number_signal eq_refl) as (Hpost & Hkept & _).
  split; [exact Hpost|exact Hkept].
Defined.

(** A write to the unreachable signal: the put is tried with the coerced
    value, its failure is logged and handed to the operator. *)
Lemma put_value_rejected :
  let c := connection_to dead_signal in
  let w := with_signal_type {[ 0 := int ]} empty_world in
  let o := put_value (E := widgets []) c (VBool true) w in
  res o = Ok tt ∧
  events o =
    [Log DEBUG "Putting value %r to %r"; SignalPut "ded" (VInt 1);
     Log EXCEPTION "Unable to put %r to %s";
     RaiseToOperator (OtherError "DisconnectedError")].
Proof.
  exact (put_value_contained (E := widgets []) (connection_to dead_signal)
           (VBool true) (with_signal_type {[ 0 := int ]} empty_world)).
Defined.

(** The value callback of a connection to the unreachable signal: the
    failure of [describe()] leaves the callback. *)
Lemma describe_failure_escapes :
  res (send_new_value (E := widgets []) (connection_to dead_signal)
         (VInt 1) VNone empty_world) =
  Raise (OtherError "DisconnectedError").
Proof. reflexivity. Qed.

(** Widgets that refuse float values and precisions: the refused value is
    logged and the severity still goes out; the refused precision is logged
    and the other metadata fields still go out.  An attach to the
    unreachable signal logs and returns.  With widgets that refuse the
    connection state, an attach to "A" raises. *)
Lemma failures_contained_with_broken_widgets :
  let E := widgets [new_value_signal float; prec_signal] in
  let self := connection_to number_signal in
  let w := with_signal_type {[ 0 := float ]} empty_world in
  let o := send_new_value (E := E) self (VInt 1) (VInt 2) w in
  let dead := add_listener (E := E) (connection_to dead_signal)
                (read_write_channel "ded") empty_world in
  res o = Ok tt ∧
  Emit new_severity_signal (VInt 2) ∈ events o ∧
  events (emit_value (E := E) self (VInt 1) w) =
    [Emit (new_value_signal float) (VFloat 1 0);
     Log EXCEPTION "Unable to update %r with value %r."] ∧
  emissions (events (for_each _key_to_signal (send_key (E := E) number_desc) w)) =
    [(unit_signal, VStr "mm"); (prec_signal, VInt 0)] ∧
  events (send_key (E := E) number_desc ("precision", prec_signal) w) =
    [Emit prec_signal (VInt 0); Log DEBUG "Failed to emit %s %s=%s"] ∧
  (res dead = Ok tt ∧
   events dead =
     [Log DEBUG "Adding %r ..."; Super (Base_add_listener 7);
      Emit new_severity_signal (VInt 0); SignalGet "ded"; gather_log]) ∧
  res (add_listener (E := widgets [connection_state_signal]) self
         (read_write_channel "A") empty_world) = Raise TypeError.
Proof.
  simpl.
  destruct (failures_contained
              (E := widgets [new_value_signal float; prec_signal])
              (connection_to number_signal)
              (with_signal_type {[ 0 := float ]} empty_world))
    as (_ & Hvalue & Hemit & _ & _ & Hkeys & Hkey & _).
  destruct (Hvalue (VInt 1) (VInt 2)) as (Hres & Hsev).
  split; [exact Hres|].
  split; [apply (Hsev eq_refl); discriminate|].
  split; [exact (proj2 (Hemit (VInt 1)))|].
  split; [exact (proj2 (Hkeys number_desc))|].
  split; [exact (proj2 (Hkey number_desc ("precision", prec_signal)))|].
  split.
  - destruct (failures_contained
                (E := widgets [new_value_signal float; prec_signal])
                (connection_to dead_signal) empty_world)
      as (_ & _ & _ & _ & _ & _ & _ & Habort & _).
    exact (Habort (read_write_channel "ded") (OtherError "DisconnectedError")
             eq_refl eq_refl).
  - destruct (failures_contained (E := widgets [connection_state_signal])
                (connection_to number_signal) empty_world)
      as (_ & _ & _ & _ & _ & _ & _ & _ & Hattach & _).
    exact (eq_trans (Hattach (read_write_channel "A")) eq_refl).
Defined.



(** A metadata callback with a precision for the connected signal "B": the
    precision, the described enumeration strings as a tuple, and the
    connected state go out. *)
Lemma send_metadata_on_enum_signal :
  let kwargs : gmap string PyVal :=
    {[ "connected" := VBool true; "precision" := VInt 3; "units" := VNone ]} in
  let o := send_metadata (E := widgets []) (connection_to enum_signal) kwargs
             empty_world in
  res o = Ok tt ∧
  emissions (events o) =
    [(prec_signal, VInt 3);
     (enum_strings_signal, VTuple [VStr "Open"; VStr "Closed"]);
     (connection_state_signal, VBool true)].
Proof.
  simpl.
  destruct (send_metadata_broadcasts (E := widgets [])
              (connection_to enum_signal)
              {[ "connected" := VBool true; "precision" := VInt 3;
                 "units" := VNone ]} empty_world) as (H & _).
  destruct (H (Some enum_desc)
              (<["enum_strs" := VTuple [VStr "Open"; VStr "Closed"]]>
                 ({[ "connected" := VBool true; "precision" := VInt 3;
                     "units" := VNone ]} ∪ enum_desc))
              (conj eq_refl (ex_intro _ {[ "B" := enum_desc ]}
                               (conj eq_refl eq_refl)))
              eq_refl) as (Hres & Hev & _).
  split; [exact Hres|exact Hev].
Defined.

(** The attach to "A" goes through and the described precision, 0, is not
    emitted; a metadata callback for the same signal does emit it. *)
Lemma precision_zero_is_not_emitted :
  let o := add_listener (E := widgets []) (connection_to number_signal)
             (read_write_channel "A") empty_world in
  let m := send_metadata (E := widgets []) (connection_to number_signal) ∅
             empty_world in
  res o = Ok tt ∧
  (describe number_signal tt).1 = Ok {[ "A" := number_desc ]} ∧
  number_desc !! "precision" = Some (VInt 0) ∧
  Emit connection_state_signal (VBool true) ∈ events o ∧
  ¬ (∃ v, Emit prec_signal v ∈ events o) ∧
  emissions (events m) = [(unit_signal, VStr "mm"); (prec_signal, VInt 0)].
Proof.
  simpl. split; [reflexivity|]. split; [reflexivity|]. split; [reflexivity|].
  split; [|split].
  - vm_compute. do 6 right. left.
  - intros [v Hin]. vm_compute in Hin.
    repeat (apply elem_of_cons in Hin as [Hin|Hin]; [discriminate Hin|]).
    by apply elem_of_nil in Hin.
  - vm_compute. reflexivity.
Qed.

(** The same attach emits the unit, the one field with a true value. *)
Lemma add_listener_reports_fields_of_number_signal :
  let o := add_listener (E := widgets []) (connection_to number_signal)
             (read_write_channel "A") empty_world in
  metadata_emissions (events o) = [(unit_signal, VStr "mm")] ∧
  ∀ v, (prec_signal, v) ∉ metadata_emissions (events o).
Proof.
  simpl.
  destruct (add_listener_reports_fields (E := widgets [])
              (connection_to number_signal) (read_write_channel "A")
              empty_world (VInt 1) number_desc eq_refl eq_refl eq_refl)
    as (Hev & _ & Hfalse).
  split; [exact Hev|].
  apply (Hfalse "precision" prec_signal (VInt 0)); [|reflexivity..].
  unfold reported_fields. left.
Defined.

(** A channel whose edit-request signal has the overloads [int] and [str]
    only: these two are disconnected, the other two are passed over. *)
Lemma remove_listener_of_partial_channel :
  let channel := {| channel_id := 7; channel_address := "A";
                    value_signal := Some [int; str] |} in
  let o := remove_listener (E := widgets []) (connection_to number_signal)
             channel false empty_world in
  ∃ unhooks done,
    events o = Log DEBUG "Removing %r ..." :: unhooks ++
               Super (Base_remove_listener 7 false) :: done ∧
    Disconnect 7 int ∈ unhooks ∧ Disconnect 7 str ∈ unhooks ∧
    (Disconnect 7 float ∉ unhooks) ∧ (Disconnect 7 ndarray ∉ unhooks).
Proof.
  simpl.
  destruct (remove_listener_unhooks (E := widgets [])
              (connection_to number_signal)
              {| channel_id := 7; channel_address := "A";
                 value_signal := Some [int; str] |} false empty_world)
    as (unhooks & x & done & Hev & Hiff & _).
  exists unhooks, done. split; [exact Hev|]. simpl in Hiff.
  split; [|split; [|split]].
  - apply Hiff. split; [reflexivity|]. exists [int; str].
    split; [reflexivity|]. left.
  - apply Hiff. split; [reflexivity|]. exists [int; str].
    split; [reflexivity|]. right. left.
  - intros Hin. apply Hiff in Hin as (_ & ov & [= <-] & Hin).
    repeat (apply elem_of_cons in Hin as [Hin|Hin]; [discriminate Hin|]).
    by apply elem_of_nil in Hin.
  - intros Hin. apply Hiff in Hin as (_ & ov & [= <-] & Hin).
    repeat (apply elem_of_cons in Hin as [Hin|Hin]; [discriminate Hin|]).
    by apply elem_of_nil in Hin.
Defined.

(** A connection to the unreachable signal, as the plugin constructs it:
    the attach was given up, no type is noted, and an edit is not
    written. *)
Lemma put_value_on_fresh_connection :
  let channel := read_write_channel "ded" in
  let w1 := post (register_signal dead_signal empty_world) in
  let w2 := post (add_connection (E := widgets []) channel w1) in
  let c := {| oid := 0; address := "ded"; signal := dead_signal;
              _cid := 0; _mid := 1 |} in
  let o := put_value (E := widgets []) c (VInt 5) w2 in
  connections w2 !! "ded" = Some c ∧
  signal_type w2 !! 0 = None ∧
  res o = Ok tt ∧
  events o = [Log EXCEPTION "Unable to put %r to %s"; RaiseToOperator TypeError] ∧
  post o = w2.
Proof.
  simpl. split; [reflexivity|]. split; [reflexivity|].
  destruct (put_value_before_first_value (E := widgets [])
              {| oid := 0; address := "ded"; signal := dead_signal;
                 _cid := 0; _mid := 1 |} (VInt 5)
              (post (add_connection (E := widgets [])
                       (read_write_channel "ded")
                       (post (register_signal dead_signal empty_world))))
              eq_refl) as (Hres & Hev & _ & Hpost).
  split; [exact Hres|]. split; [exact Hev|exact Hpost].
Defined.

(** *** Examples for the further properties *)

(** A value callback for the unreachable signal. *)
Lemma failed_value_callback_of_dead_signal :
  let o := send_new_value (E := widgets []) (connection_to dead_signal)
             (VInt 1) (VInt 2) empty_world in
  res o = Raise (OtherError "DisconnectedError") ∧
  events o = [SignalDescribe "ded"] ∧
  emissions (events o) = [] ∧
  signal_type (post o) !! 0 = None.
Proof.
  simpl. split; [reflexivity|].
  destruct (failed_value_callback_sends_nothing (E := widgets [])
              (connection_to dead_signal) (VInt 1) (VInt 2) empty_world
              (OtherError "DisconnectedError") eq_refl)
    as (Hev & Hem & _ & Hty).
  split; [exact Hev|]. split; [exact Hem|exact Hty].
Defined.

(** A value callback for the signal of dtype "boolean". *)
Lemma value_callback_of_boolean_signal :
  ophyd_type_map !! "boolean" = None ∧
  res (send_new_value (E := widgets []) (connection_to boolean_signal)
         (VBool true) VNone empty_world) = Raise KeyError.
Proof.
  split; [reflexivity|].
  exact (unknown_dtype_raises_KeyError (E := widgets [])
           (connection_to boolean_signal) (VBool true) VNone empty_world
           {[ "C" := boolean_desc ]} boolean_desc "boolean" tt
           eq_refl eq_refl eq_refl eq_refl eq_refl).
Defined.

(** A value callback with an alarm severity for "A". *)
Lemma value_callback_with_severity :
  let o := send_new_value (E := widgets []) (connection_to number_signal)
             (VInt 2) (VInt 1) empty_world in
  signal_type (post o) !! 0 = Some float ∧
  emissions (events o) =
    [(new_value_signal float, VFloat 2 0); (new_severity_signal, VInt 1)].
Proof.
  simpl.
  destruct (value_callback_sends (E := widgets [])
              (connection_to number_signal) (VInt 2) (VInt 1) empty_world
              eq_refl) as (c & Hc & Hev).
  assert (Hfloat : c = float).
  { vm_compute in Hc. by injection Hc. }
  subst c. split; [exact Hc|exact Hev].
Defined.

(** A metadata callback for the unreachable signal, which is not
    connected. *)
Lemma metadata_callback_of_dead_signal :
  let o := send_metadata (E := widgets []) (connection_to dead_signal)
             {[ "connected" := VBool false ]} empty_world in
  without is_signal_call (events o) ∧
  events o = [Emit connection_state_signal (VBool false)].
Proof.
  simpl. split; [|reflexivity].
  exact (proj1 (disconnected_metadata_asks_nothing (E := widgets [])
                  (connection_to dead_signal)
                  {[ "connected" := VBool false ]} empty_world eq_refl)).
Defined.

(** A metadata callback whose enumeration strings are a number: the unit
    that came with them is not emitted. *)
Lemma metadata_callback_with_bad_enum_strs :
  let kwargs : gmap string PyVal :=
    {[ "enum_strs" := VInt 3; "units" := VStr "mm" ]} in
  let o := send_metadata (E := widgets []) (connection_to dead_signal) kwargs
             empty_world in
  res o = Raise TypeError ∧ emissions (events o) = [].
Proof.
  simpl. split; [reflexivity|].
  exact (failed_metadata_callback_sends_nothing (E := widgets [])
           (connection_to dead_signal)
           {[ "enum_strs" := VInt 3; "units" := VStr "mm" ]} empty_world
           TypeError eq_refl).
Defined.

(** Emissions of a metadata callback for "B" are on metadata signals. *)
Lemma metadata_callback_sends_no_severity :
  let o := send_metadata (E := widgets []) (connection_to enum_signal)
             {[ "precision" := VInt 3 ]} empty_world in
  (prec_signal, VInt 3) ∈ emissions (events o) ∧
  ∀ v, (new_severity_signal, v) ∉ emissions (events o).
Proof.
  simpl. split; [vm_compute; left|].
  intros v Hin.
  destruct (calls_that_send_no_value (E := widgets [])
              (connection_to enum_signal) empty_world) as (_ & _ & _ & H).
  destruct (H _ _ _ Hin) as (_ & Hne & _). by apply Hne.
Defined.

(** The attach to "A", in full. *)
Lemma successful_attach_to_number_signal :
  let o := add_listener (E := widgets []) (connection_to number_signal)
             (read_write_channel "A") empty_world in
  signal_type (post o) !! 0 = Some float ∧
  emissions (events o) =
    [(new_severity_signal, VInt 0); (write_access_signal, VBool true);
     (connection_state_signal, VBool true); (unit_signal, VStr "mm");
     (new_value_signal float, VFloat 1 0)].
Proof.
  simpl.
  destruct (successful_attach_sends (E := widgets [])
              (connection_to number_signal) (read_write_channel "A")
              empty_world (VInt 1) number_desc eq_refl eq_refl eq_refl)
    as (c & Hc & Hev).
  assert (Hfloat : c = float).
  { vm_compute in Hc. by injection Hc. }
  subst c. split; [exact Hc|exact Hev].
Defined.

(** The hooks of attaches of the channel with two overloads: to "A", and to
    the unreachable signal. *)
Lemma attach_hooks_of_partial_channel :
  connects (events (add_listener (E := widgets [])
                      (connection_to number_signal) partial_channel
                      empty_world)) = [(7, int); (7, str)] ∧
  connects (events (add_listener (E := widgets [])
                      (connection_to dead_signal) partial_channel
                      empty_world)) = [].
Proof.
  split.
  - exact (attach_hooks (E := widgets []) (connection_to number_signal)
             partial_channel empty_world eq_refl eq_refl).
  - exact (attach_hooks (E := widgets []) (connection_to dead_signal)
             partial_channel empty_world eq_refl).
Defined.

(** Attach and detach of the channel with two overloads: [int] is
    connected and disconnected, [float] is neither. *)
Lemma attach_detach_of_partial_channel :
  let attach := events (add_listener (E := widgets [])
                          (connection_to number_signal) partial_channel
                          empty_world) in
  let detach := events (remove_listener (E := widgets [])
                          (connection_to number_signal) partial_channel
                          false empty_world) in
  (Connect 7 int ∈ attach ∧ Disconnect 7 int ∈ detach) ∧
  ((Connect 7 float ∉ attach) ∧ (Disconnect 7 float ∉ detach)).
Proof.
  simpl.
  pose proof (attach_detach_round_trip (E := widgets [])
                (connection_to number_signal) partial_channel empty_world
                empty_world (VInt 1) number_desc eq_refl eq_refl eq_refl)
    as Hiff.
  assert (Hint : Connect 7 int ∈
            events (add_listener (E := widgets [])
                      (connection_to number_signal) partial_channel
                      empty_world)).
  { vm_compute. repeat (first [by left | right]). }
  assert (Hfloat : Disconnect 7 float ∉
            events (remove_listener (E := widgets [])
                      (connection_to number_signal) partial_channel
                      false empty_world)).
  { vm_compute. intros Hin.
    repeat (apply elem_of_cons in Hin as [Hin|Hin]; [discriminate Hin|]).
    by apply elem_of_nil in Hin. }
  split.
  - split; [exact Hint|]. by apply (Hiff int).
  - split; [|exact Hfloat]. intros Hin. apply Hfloat. by apply (Hiff float).
Defined.


(** The connection the constructor makes for "A" once it is registered, and
    what closing it releases. *)
Lemma close_of_constructed_connection :
  let w := post (register_signal number_signal empty_world) in
  let c := {| oid := 0; address := "A"; signal := number_signal;
              _cid := 0; _mid := 1 |} in
  res (__init__ (E := widgets []) 0 (read_write_channel "A") "A" w) = Ok c ∧
  events (close c w) = [SignalUnsubscribe "A" 0; SignalUnsubscribe "A" 1].
Proof.
  simpl. split; [reflexivity|].
  exact (proj2 (close_releases_the_handles (E := widgets []) 0
                  (read_write_channel "A") "A"
                  (post (register_signal number_signal empty_world))
                  {| oid := 0; address := "A"; signal := number_signal;
                     _cid := 0; _mid := 1 |} eq_refl)
           (post (register_signal number_signal empty_world))).
Defined.

(** The constructor for "A" before it is registered. *)
Lemma construction_before_registration :
  events (__init__ (E := widgets []) 0 (read_write_channel "A") "A" empty_world)
  = [Super (Base_init "A")].
Proof.
  exact (failed_lookup_leaves_no_trace (E := widgets []) 0
           (read_write_channel "A") "A" empty_world eq_refl).
Defined.
